(** * Kyotsu backend: event-code grammar, prefix resolution, increment
      allocation and lookup

    A shallow embedding of the core of the [kyotsu] package:

    - [kyotsu/utis.py]: [error_code_pattern], [parse_error_code] and the
      recursive query [get_prefix_ids_by_composed_key_query];
    - [kyotsu/db/models.py]: the [Prefix] and [EventCode] rows, their
      [str_value] properties and the foreign keys between them;
    - [kyotsu/db/triggers.py]: the [BEFORE INSERT] trigger that numbers
      event codes;
    - [kyotsu/api/service/routes.py]: [get_error_code_details].

    Python [str] values are modelled by [string]; the development covers
    the ASCII range, in which the wire format of the codes lives.  Python
    and SQL integers are modelled by [Z].  Tables are lists of rows.

    Three limits of the platform bound the range in which the functions
    below are the code:

    - outside the ASCII range [str.upper] and the class [\d] do more
      than [Py.upper] and [Re.digit] ([Props.is_ascii]);
    - [int] refuses a string of more than 4300 digits with [ValueError]
      ([Props.digits_within_limit]);
    - the column [increment] is a 32-bit integer, and the sum of the
      trigger is refused beyond 2147483647: [Triggers.next_increment]
      is the sum as a number, [Triggers.event_code_auto_increment] the
      function with the range check.

    A theorem that depends on one of these limits carries it as a
    hypothesis. *)

From Stdlib Require Import ZArith NArith List String Ascii Bool Lia Permutation.
Import ListNotations.

Local Open Scope Z_scope.
Local Open Scope list_scope.

(* ===================================================================== *)
(** * Exceptions and the error monad *)
(* ===================================================================== *)

(** The exceptions that the modelled code can raise.  [HTTPException] is
    the only one the code raises on purpose; the others escape from the
    runtime ([AttributeError] from [None.groupdict()] and
    [None.str_value], [TypeError] from [None[0]], [RecursionError] from
    a chain of parents without end), from SQLAlchemy ([NoResultFound],
    [MultipleResultsFound]) or from pydantic ([ValidationError]).
    [StatementTimeout] stands for a recursive query that produces rows
    for ever. *)
Inductive exn : Type :=
| AttributeError
| TypeError
| RecursionError
| HTTPException (status_code : Z) (detail : string)
| MultipleResultsFound
| NoResultFound
| ValidationError
| StatementTimeout.

Inductive result (A : Type) : Type :=
| Ok (a : A)
| Raise (e : exn).
Arguments Ok {A} a.
Arguments Raise {A} e.

Definition bind {A B : Type} (m : result A) (k : A -> result B) : result B :=
  match m with
  | Ok a => k a
  | Raise e => Raise e
  end.

Notation "x <- m ;; k" := (bind m (fun x => k))
  (at level 61, m at next level, right associativity).
Notation "' p <- m ;; k" := (bind m (fun x => match x with p => k end))
  (at level 61, p pattern, m at next level, right associativity).

Definition HTTP_404_NOT_FOUND : Z := 404.

(* ===================================================================== *)
(** * Python built-ins on [str] and [int] *)
(* ===================================================================== *)

Module Py.

Definition in_range (lo hi : N) (c : ascii) : bool :=
  let n := N_of_ascii c in (lo <=? n)%N && (n <=? hi)%N.

Definition is_lower (c : ascii) : bool := in_range 97 122 c.
Definition is_upper (c : ascii) : bool := in_range 65 90 c.
Definition is_alpha (c : ascii) : bool := is_lower c || is_upper c.
Definition is_digit (c : ascii) : bool := in_range 48 57 c.
Definition is_dot (c : ascii) : bool := Ascii.eqb c ".".

(** [c.upper()] on one character. *)
Definition upper_char (c : ascii) : ascii :=
  if is_lower c then ascii_of_N (N_of_ascii c - 32) else c.

(** [s.upper()]. *)
Fixpoint upper (s : string) : string :=
  match s with
  | EmptyString => EmptyString
  | String c s' => String (upper_char c) (upper s')
  end.

(** [sep.join(l)]. *)
Definition join (sep : string) (l : list string) : string :=
  String.concat sep l.

(** [s.split(".")]: one field per dot, empty fields kept, never the
    empty list. *)
Fixpoint split_dot (s : string) : list string :=
  match s with
  | EmptyString => [EmptyString]
  | String c s' =>
      if is_dot c then EmptyString :: split_dot s'
      else match split_dot s' with
           | field :: fields => String c field :: fields
           | [] => [String c EmptyString]
           end
  end.

Definition digit_val (c : ascii) : Z := Z.of_N (N_of_ascii c) - 48.
Definition digit_char (d : Z) : ascii := ascii_of_N (48 + Z.to_N d).

(** [int(s)] on a string of decimal digits. *)
Fixpoint int_acc (acc : Z) (s : string) : Z :=
  match s with
  | EmptyString => acc
  | String c s' => int_acc (10 * acc + digit_val c) s'
  end.
Definition int (s : string) : Z := int_acc 0 s.

(** [str(n)] for [n >= 0], most significant digit first.  The fuel
    bounds the number of digits. *)
Fixpoint to_digits (fuel : nat) (n : Z) : string :=
  match fuel with
  | O => EmptyString
  | S f =>
      if n <? 10 then String (digit_char n) EmptyString
      else (to_digits f (n / 10) ++ String (digit_char (n mod 10)) EmptyString)%string
  end.

Definition digits_fuel (n : Z) : nat := S (Z.to_nat (Z.log2 n)).

(** [str(n)]. *)
Definition str (n : Z) : string :=
  if n <? 0 then String "-" (to_digits (digits_fuel (- n)) (- n))
  else to_digits (digits_fuel n) n.

Fixpoint replicate (n : nat) (c : ascii) : string :=
  match n with
  | O => EmptyString
  | S n' => String c (replicate n' c)
  end.

(** [format(s, "{fill}>{width}")]: right-align in [width] columns. *)
Definition rjust (width : nat) (fill : ascii) (s : string) : string :=
  (replicate (width - String.length s) fill ++ s)%string.

(** [f"{n:0>4}"]. *)
Definition format_0r4 (n : Z) : string := rjust 4 "0" (str n).

(** [s[:n]]. *)
Fixpoint slice_to (n : nat) (s : string) : string :=
  match n, s with
  | S n', String c s' => String c (slice_to n' s')
  | _, _ => EmptyString
  end.

Fixpoint drop (n : nat) (s : string) : string :=
  match n, s with
  | S n', String _ s' => drop n' s'
  | _, _ => s
  end.

(** [s[-n:]] for [n > 0]: the last [n] characters, the whole string
    when it is shorter. *)
Definition slice_last (n : nat) (s : string) : string :=
  drop (String.length s - n) s.

End Py.

(* ===================================================================== *)
(** * Regular expressions: the fragment used by [error_code_pattern] *)
(* ===================================================================== *)

Module Re.

(** The ways in which [cls+] can match at the start of [s], as
    (matched text, remaining text), in the order in which a greedy
    backtracking matcher tries them: longest first. *)
Fixpoint plus_greedy (cls : ascii -> bool) (s : string)
  : list (string * string) :=
  match s with
  | EmptyString => []
  | String c s' =>
      if cls c
      then map (fun mr => (String c (fst mr), snd mr)) (plus_greedy cls s')
             ++ [(String c EmptyString, s')]
      else []
  end.

(** First candidate on which the continuation succeeds. *)
Fixpoint first_some {A B : Type} (k : A -> option B) (l : list A)
  : option B :=
  match l with
  | [] => None
  | a :: l' => match k a with
               | Some b => Some b
               | None => first_some k l'
               end
  end.

(** [[a-zA-Z.]] *)
Definition alpha_dot (c : ascii) : bool := Py.is_alpha c || Py.is_dot c.
(** [\d] *)
Definition digit (c : ascii) : bool := Py.is_digit c.

End Re.

(* ===================================================================== *)
(** * [kyotsu/db/constants.py] and [kyotsu/db/models.py] *)
(* ===================================================================== *)

Inductive EventCodeSeverityEnum : Type := CRITICAL | ERROR | WARNING | INFO.

Module Prefix.
Record t : Type := Build
  { id : Z;
    prefix : string;
    alias : string;
    description : option string;
    parent_prefix_id : option Z }.
End Prefix.

Module EventCode.
Record t : Type := Build
  { id : string;                       (* UUIDMixin *)
    prefix_id : Z;
    increment : Z;
    custom_message : option string;
    hint : option string;
    severity : EventCodeSeverityEnum;
    dev_note : option string;
    is_deprecated : bool;
    use_generic_message : bool;
    is_private : bool }.
End EventCode.

(** The two relations of the database. *)
Record database : Type := Database
  { prefix_table : list Prefix.t;
    event_code_table : list EventCode.t }.

Module Models.

(** Truthiness of an optional integer: [not x] holds for [None] and
    for [0]. *)
Definition falsy (x : option Z) : bool :=
  match x with
  | None => true
  | Some v => v =? 0
  end.

Definition get_prefix (T : list Prefix.t) (pid : Z) : option Prefix.t :=
  find (fun p => Prefix.id p =? pid) T.

(** [Prefix.str_value]: the node's own segment for a root, otherwise
    the parent's [str_value], a dot, and the own segment.  The fuel
    bounds the number of parents that are awaited. *)
Fixpoint Prefix_str_value (fuel : nat) (T : list Prefix.t)
         (self : Prefix.t) : result string :=
  match fuel with
  | O => Raise RecursionError
  | S f =>
      if falsy (Prefix.parent_prefix_id self) then Ok (Prefix.prefix self)
      else
        match Prefix.parent_prefix_id self with
        | None => Ok (Prefix.prefix self)
        | Some pid =>
            match get_prefix T pid with
            | None => Raise AttributeError
            | Some parent_prefix =>
                s <- Prefix_str_value f T parent_prefix ;;
                Ok (s ++ "." ++ Prefix.prefix self)%string
            end
        end
  end.

(** The f-string of [EventCode.str_value], given the awaited
    [str_value] of the owning prefix. *)
Definition EventCode_format (prefix_str_value : string) (increment : Z)
  : string :=
  (prefix_str_value ++ Py.format_0r4 increment)%string.

(** [EventCode.str_value]. *)
Definition EventCode_str_value (db : database) (self : EventCode.t)
  : result string :=
  match get_prefix (prefix_table db) (EventCode.prefix_id self) with
  | None => Raise AttributeError
  | Some p =>
      s <- Prefix_str_value (S (List.length (prefix_table db)))
                            (prefix_table db) p ;;
      Ok (EventCode_format s (EventCode.increment self))
  end.

End Models.

(* ===================================================================== *)
(** * [kyotsu/utis.py] *)
(* ===================================================================== *)

Module Utis.

(** [error_code_pattern.match(code)]: the groups [prefixes] and
    [increment] of [(?P<prefixes>[a-zA-Z.]+)(?P<increment>\d+)] matched
    at the start of [code]; [None] when there is no match. *)
Definition error_code_pattern_match (code : string)
  : option (string * string) :=
  Re.first_some
    (fun mr =>
       match Re.plus_greedy Re.digit (snd mr) with
       | (increment, _) :: _ => Some (fst mr, increment)
       | [] => None
       end)
    (Re.plus_greedy Re.alpha_dot code).

Definition parse_error_code (code : string) : result (list string * Z) :=
  match error_code_pattern_match code with
  | None => Raise AttributeError       (* None.groupdict() *)
  | Some (prefixes, increment) =>
      Ok (Py.split_dot prefixes, Py.int increment)
  end.

(** [cumulate_prefixes]: the joined chain, then the same for the chain
    without its first segment, and so on. *)
Fixpoint cumulate_prefixes (prefixes : list string) : list string :=
  match prefixes with
  | [] => []
  | _ :: rest => Py.join "." prefixes :: cumulate_prefixes rest
  end.

(** ** The recursive common table expression [composed_prefix] *)

(** A row of the common table expression: the columns [id], [prefix],
    [composed_prefix] and [parent_prefix_id]. *)
Record cte_row : Type := CteRow
  { c_id : Z;
    c_prefix : string;
    c_composed_prefix : string;
    c_parent_prefix_id : option Z }.

Definition is_null (x : option Z) : bool :=
  match x with
  | None => true
  | Some _ => false
  end.

(** SQL equality [x = v] of a nullable column with a value: never true
    for [NULL]. *)
Definition sql_eq (x : option Z) (v : Z) : bool :=
  match x with
  | None => false
  | Some w => w =? v
  end.

(** The non-recursive term: every root, with its own segment as
    composed prefix. *)
Definition anchor (T : list Prefix.t) : list cte_row :=
  map (fun p => CteRow (Prefix.id p) (Prefix.prefix p) (Prefix.prefix p)
                       (Prefix.parent_prefix_id p))
      (filter (fun p => is_null (Prefix.parent_prefix_id p)) T).

(** The recursive term: [prefixes JOIN composed_prefix ON
    prefixes.parent_prefix_id = composed_prefix.id], evaluated on the
    rows [W] that the previous iteration produced. *)
Definition extend (p : Prefix.t) (a : cte_row) : list cte_row :=
  if sql_eq (Prefix.parent_prefix_id p) (c_id a)
  then [CteRow (Prefix.id p) (Prefix.prefix p)
               (c_composed_prefix a ++ "." ++ Prefix.prefix p)%string
               (Prefix.parent_prefix_id p)]
  else [].

Definition recursive (T : list Prefix.t) (W : list cte_row)
  : list cte_row :=
  flat_map (fun p => flat_map (extend p) W) T.

(** [WITH RECURSIVE ... UNION ALL]: the working table [W] is appended
    to the result and replaced by the recursive term evaluated on it,
    until it is empty.  [fuel] bounds the number of iterations. *)
Fixpoint union_all (fuel : nat) (T : list Prefix.t) (W : list cte_row)
  : result (list cte_row) :=
  match W with
  | [] => Ok []
  | _ :: _ =>
      match fuel with
      | O => Raise StatementTimeout
      | S f =>
          rest <- union_all f T (recursive T W) ;;
          Ok (W ++ rest)
      end
  end.

Definition composed_prefix_cte (T : list Prefix.t) : result (list cte_row) :=
  union_all (List.length T) T (anchor T).

(** [ORDER BY composed_prefix]: a stable insertion sort. *)
Fixpoint insert_row (r : cte_row) (l : list cte_row) : list cte_row :=
  match l with
  | [] => [r]
  | r' :: l' =>
      if String.leb (c_composed_prefix r) (c_composed_prefix r')
      then r :: l
      else r' :: insert_row r l'
  end.

Definition order_by_composed_prefix (l : list cte_row) : list cte_row :=
  fold_right insert_row [] l.

(** A [Select[tuple[int]]] denotes a function from the [prefixes]
    table to the ids it returns. *)
Definition Select : Type := list Prefix.t -> result (list Z).

Definition get_prefix_ids_by_composed_key_query (prefixes : list string)
  : Select :=
  fun T =>
    rows <- composed_prefix_cte T ;;
    Ok (map c_id
          (order_by_composed_prefix
             (filter (fun r => String.eqb (c_composed_prefix r)
                                          (Py.join "." prefixes))
                     rows))).

End Utis.

(* ===================================================================== *)
(** * [kyotsu/db/triggers.py] *)
(* ===================================================================== *)

Module Triggers.

(** SQL [MAX]: [NULL] on no rows. *)
Definition sql_max (l : list Z) : option Z :=
  fold_right (fun x acc => match acc with
                           | None => Some x
                           | Some m => Some (Z.max x m)
                           end) None l.

Definition coalesce (x : option Z) (d : Z) : Z :=
  match x with
  | Some v => v
  | None => d
  end.

Definition set_increment (e : EventCode.t) (n : Z) : EventCode.t :=
  EventCode.Build (EventCode.id e) (EventCode.prefix_id e) n
    (EventCode.custom_message e) (EventCode.hint e) (EventCode.severity e)
    (EventCode.dev_note e) (EventCode.is_deprecated e)
    (EventCode.use_generic_message e) (EventCode.is_private e).

(** The value of [COALESCE(MAX(increment), 0) + 1] over the rows with
    [prefix_id = NEW.prefix_id], as a number. *)
Definition next_increment (T : list EventCode.t) (prefix_id : Z) : Z :=
  coalesce
    (sql_max (map EventCode.increment
                  (filter (fun e => EventCode.prefix_id e =? prefix_id) T)))
    0 + 1.

(** [auto_event_code_increment_function()]: [... INTO NEW.increment;
    RETURN NEW], the row that the function returns when the sum is in
    the range of the column. *)
Definition auto_event_code_increment_function
           (T : list EventCode.t) (NEW : EventCode.t) : EventCode.t :=
  set_increment NEW (next_increment T (EventCode.prefix_id NEW)).

(** [trg_auto_increment]: [BEFORE INSERT ... FOR EACH ROW]; the row
    that the function returns is the one that is stored.  The table
    after an insertion whose sum is in the range of the column. *)
Definition insert_event_code (T : list EventCode.t) (NEW : EventCode.t)
  : list EventCode.t :=
  T ++ [auto_event_code_increment_function T NEW].

(** ** The range of the column *)

(** [increment: Mapped[int]] is an [INTEGER] column: 32 bits, signed. *)
Definition int4_min : Z := -2147483648.
Definition int4_max : Z := 2147483647.

Definition in_int4 (n : Z) : bool := (int4_min <=? n) && (n <=? int4_max).

(** [a + b] on [integer] operands: a sum out of range is refused
    ("integer out of range"), it does not wrap. *)
Definition int4pl (a b : Z) : option Z :=
  if in_int4 (a + b) then Some (a + b) else None.

(** [event_code_auto_increment], the function with the range check:
    [None] when the sum is refused, and then the [INSERT] fails. *)
Definition event_code_auto_increment
           (T : list EventCode.t) (NEW : EventCode.t) : option EventCode.t :=
  match int4pl
          (coalesce
             (sql_max
                (map EventCode.increment
                     (filter (fun e => EventCode.prefix_id e
                                       =? EventCode.prefix_id NEW) T)))
             0)
          1 with
  | Some n => Some (set_increment NEW n)
  | None => None
  end.

(** [event_code_auto_increment_trigger]: the row is stored as the
    function returns it; no row is stored when the function fails. *)
Definition event_code_auto_increment_trigger
           (T : list EventCode.t) (NEW : EventCode.t)
  : option (list EventCode.t) :=
  match event_code_auto_increment T NEW with
  | Some row => Some (T ++ [row])
  | None => None
  end.

(** Insertions one after the other, each on the table the one before
    left; the first failure ends the sequence. *)
Fixpoint insert_all (T : list EventCode.t) (news : list EventCode.t)
  : option (list EventCode.t) :=
  match news with
  | [] => Some T
  | NEW :: rest =>
      match event_code_auto_increment_trigger T NEW with
      | Some T' => insert_all T' rest
      | None => None
      end
  end.

End Triggers.

(* ===================================================================== *)
(** * Statements on the [event_codes] table *)
(* ===================================================================== *)

(** [models.py] declares [event_codes.id] a primary key and
    [event_codes.prefix_id] a foreign key to [prefixes.id];
    [triggers.py] attaches the trigger to [INSERT].  This module gives
    [INSERT] and [DELETE] on [event_codes] their meaning under these
    declarations. *)
Module Sql.

Definition mem (x : Z) (l : list Z) : bool := existsb (Z.eqb x) l.

Definition ids (T : list Prefix.t) : list Z := map Prefix.id T.

Definition mem_str (x : string) (l : list string) : bool :=
  existsb (String.eqb x) l.

Inductive statement : Type :=
| InsertEventCode (e : EventCode.t)
| DeleteEventCode (eid : string).

(** One statement; [None] when a constraint or the trigger rejects
    it. *)
Definition execute (db : database) (st : statement) : option database :=
  match st with
  | InsertEventCode e =>
      if mem_str (EventCode.id e) (map EventCode.id (event_code_table db))
         || negb (mem (EventCode.prefix_id e) (ids (prefix_table db)))
      then None
      else
        match Triggers.event_code_auto_increment_trigger
                (event_code_table db) e with
        | Some T' => Some (Database (prefix_table db) T')
        | None => None
        end
  | DeleteEventCode eid =>
      Some (Database (prefix_table db)
              (filter (fun r => negb (String.eqb (EventCode.id r) eid))
                      (event_code_table db)))
  end.

End Sql.

(* ===================================================================== *)
(** * [kyotsu/api/service/routes.py] *)
(* ===================================================================== *)

Module Routes.

Record EventCodeR : Type := Build_EventCodeR
  { code : string;
    details : string;
    hint : option string;
    severity : EventCodeSeverityEnum }.

(** The constructor of the pydantic model: [details: str] rejects
    [None]; [hint: str | None] accepts it. *)
Definition EventCodeR_new (code : string) (details : option string)
           (hint : option string) (severity : EventCodeSeverityEnum)
  : result EventCodeR :=
  match details with
  | Some d => Ok (Build_EventCodeR code d hint severity)
  | None => Raise ValidationError
  end.

(** [result.fetchone()]. *)
Definition fetchone {A : Type} (rows : list A) : option A :=
  match rows with
  | [] => None
  | row :: _ => Some row
  end.

(** [row[0]] on what [fetchone] returned. *)
Definition getitem_0 {A : Type} (row : option A) : result A :=
  match row with
  | None => Raise TypeError
  | Some v => Ok v
  end.

(** [result.scalars().unique().one()]. *)
Definition one {A : Type} (rows : list A) : result A :=
  match rows with
  | [] => Raise NoResultFound
  | [row] => Ok row
  | _ :: _ :: _ => Raise MultipleResultsFound
  end.

(** [try: m except NoResultFound as e: raise h from e]. *)
Definition except_NoResultFound {A : Type} (m : result A) (h : exn)
  : result A :=
  match m with
  | Raise NoResultFound => Raise h
  | _ => m
  end.

(** [select(EventCode).where((EventCode.prefix_id == prefix_id) &
    (EventCode.increment == increment))]. *)
Definition event_code_query (prefix_id increment : Z)
           (T : list EventCode.t) : list EventCode.t :=
  filter (fun e => (EventCode.prefix_id e =? prefix_id)
                   && (EventCode.increment e =? increment)) T.

Definition prefix_not_found (prefixes : list string) : exn :=
  HTTPException HTTP_404_NOT_FOUND
    ("Prefix '" ++ Py.join "." prefixes ++ "' is not found.")%string.

Definition event_code_not_found (code : string) : exn :=
  HTTPException HTTP_404_NOT_FOUND
    ("EventCode '" ++ code ++ "' is not found.")%string.

Definition generic_message : string := "Something went wrong.".

Definition get_error_code_details (code : string) (db : database)
  : result EventCodeR :=
  '(prefixes, increment) <- Utis.parse_error_code (Py.upper code) ;;
  let query := Utis.get_prefix_ids_by_composed_key_query prefixes in
  rows <- query (prefix_table db) ;;
  prefix_id <- getitem_0 (fetchone rows) ;;
  if prefix_id =? 0 then Raise (prefix_not_found prefixes)
  else
    event_code <-
      except_NoResultFound
        (one (event_code_query prefix_id increment (event_code_table db)))
        (event_code_not_found code) ;;
    let message :=
      if EventCode.use_generic_message event_code
      then Some generic_message
      else EventCode.custom_message event_code in
    EventCodeR_new code message
                   (EventCode.hint event_code)
                   (EventCode.severity event_code).

End Routes.

(* ===================================================================== *)
(** * Specification-side definitions *)
(* ===================================================================== *)

Module Spec.

Fixpoint all_chars (cls : ascii -> bool) (s : string) : bool :=
  match s with
  | EmptyString => true
  | String c s' => cls c && all_chars cls s'
  end.

Definition nonempty (s : string) : bool :=
  match s with
  | EmptyString => false
  | String _ _ => true
  end.

Definition dot_free (s : string) : bool :=
  all_chars (fun c => negb (Py.is_dot c)) s.

(** The longest leading run of characters of class [cls], and the
    rest. *)
Fixpoint span (cls : ascii -> bool) (s : string) : string * string :=
  match s with
  | EmptyString => (EmptyString, EmptyString)
  | String c s' =>
      if cls c
      then let '(m, r) := span cls s' in (String c m, r)
      else (EmptyString, s)
  end.

(** The leading run of letters and dots and the run of digits that
    follows it, when both are non-empty. *)
Definition leading_code (code : string) : option (string * string) :=
  let '(p, r) := span Re.alpha_dot code in
  let '(d, _) := span Re.digit r in
  if nonempty p && nonempty d then Some (p, d) else None.

(** The grammar [<segment>(.<segment>)*<digits>] of the specification,
    on the whole string: segments are non-empty runs of letters, the
    digits a non-empty run of decimal digits. *)
Inductive grammar_state : Type := SegmentStart | InSegment | InDigits.

Fixpoint grammar_from (st : grammar_state) (s : string) : bool :=
  match s with
  | EmptyString =>
      match st with
      | InDigits => true
      | _ => false
      end
  | String c s' =>
      match st with
      | SegmentStart => Py.is_alpha c && grammar_from InSegment s'
      | InSegment =>
          if Py.is_alpha c then grammar_from InSegment s'
          else if Py.is_dot c then grammar_from SegmentStart s'
          else Py.is_digit c && grammar_from InDigits s'
      | InDigits => Py.is_digit c && grammar_from InDigits s'
      end
  end.

Definition code_grammar (s : string) : bool := grammar_from SegmentStart s.

Definition is_space (c : ascii) : bool :=
  let n := N_of_ascii c in ((9 <=? n)%N && (n <=? 13)%N) || (n =? 32)%N.

Fixpoint last_char (s : string) : option ascii :=
  match s with
  | EmptyString => None
  | String c EmptyString => Some c
  | String _ s' => last_char s'
  end.

Definition first_char (s : string) : option ascii :=
  match s with
  | EmptyString => None
  | String c _ => Some c
  end.

Definition not_space (c : option ascii) : bool :=
  match c with
  | None => true
  | Some c => negb (is_space c)
  end.

(** A valid segment in the sense of the round-trip property of the
    specification: non-empty, no dot, no leading or trailing
    whitespace. *)
Definition valid_segment (s : string) : bool :=
  nonempty s && dot_free s
  && not_space (first_char s) && not_space (last_char s).

(** A segment of letters only. *)
Definition alpha_segment (s : string) : bool :=
  nonempty s && all_chars Py.is_alpha s.

(** [format(segments, increment)]: the string that [EventCode.str_value]
    builds for an event code whose prefix has the chain [segments]. *)
Definition format (segments : list string) (increment : Z) : string :=
  Models.EventCode_format (Py.join "." segments) increment.

(** ** The prefix tree *)

(** [chain T n S]: [S] is the chain of segments from a root of [T]
    down to the node [n]. *)
Inductive chain (T : list Prefix.t) : Prefix.t -> list string -> Prop :=
| chain_root n :
    In n T -> Prefix.parent_prefix_id n = None ->
    chain T n [Prefix.prefix n]
| chain_child n m S :
    In n T -> In m T ->
    Prefix.parent_prefix_id n = Some (Prefix.id m) ->
    chain T m S ->
    chain T n (S ++ [Prefix.prefix n]).

(** The composed dotted path of a node: its chain joined by dots. *)
Definition composed_path (T : list Prefix.t) (n : Prefix.t) (s : string)
  : Prop :=
  exists S, chain T n S /\ s = Py.join "." S.

(** [id] is the primary key. *)
Definition primary_key (T : list Prefix.t) : Prop :=
  NoDup (map Prefix.id T).

(** No two rows share both parent and segment. *)
Definition unique_parent_segment (T : list Prefix.t) : Prop :=
  forall n m, In n T -> In m T ->
    Prefix.parent_prefix_id n = Prefix.parent_prefix_id m ->
    Prefix.prefix n = Prefix.prefix m -> n = m.

(** Segments hold no dot (data model of the specification). *)
Definition dot_free_segments (T : list Prefix.t) : Prop :=
  Forall (fun p => dot_free (Prefix.prefix p) = true) T.

(** The row of the common table expression for node [n] with composed
    path [s]. *)
Definition row_of (n : Prefix.t) (s : string) : Utis.cte_row :=
  Utis.CteRow (Prefix.id n) (Prefix.prefix n) s (Prefix.parent_prefix_id n).

(** The working table of the [k]-th iteration. *)
Fixpoint level (T : list Prefix.t) (k : nat) : list Utis.cte_row :=
  match k with
  | O => Utis.anchor T
  | S k' => Utis.recursive T (level T k')
  end.

(** ** Deletion and foreign keys *)

(** ** Letter case *)

(** Two characters that are equal up to ASCII letter case: the same
    character, or a lower-case letter and its upper-case form. *)
Definition case_eq_char (a b : ascii) : bool :=
  Ascii.eqb a b
  || (Py.is_lower a && Ascii.eqb b (Py.upper_char a))
  || (Py.is_lower b && Ascii.eqb a (Py.upper_char b)).

Fixpoint case_eq (s1 s2 : string) : bool :=
  match s1, s2 with
  | EmptyString, EmptyString => true
  | String a s1', String b s2' => case_eq_char a b && case_eq s1' s2'
  | _, _ => false
  end.

(** Two outcomes of the lookup that differ at most in the echoed
    code. *)
Definition same_outcome (c1 c2 : string)
           (o1 o2 : result Routes.EventCodeR) : Prop :=
  match o1, o2 with
  | Ok r1, Ok r2 =>
      Routes.code r1 = c1 /\ Routes.code r2 = c2
      /\ Routes.details r1 = Routes.details r2
      /\ Routes.hint r1 = Routes.hint r2
      /\ Routes.severity r1 = Routes.severity r2
  | Raise e1, Raise e2 =>
      e1 = e2
      \/ (e1 = Routes.event_code_not_found c1
          /\ e2 = Routes.event_code_not_found c2)
  | _, _ => False
  end.

(** ** Example data *)

(** The tree of the specification: root [A], child [A.LOGIN],
    grandchild [A.LOGIN.OAUTH]. *)
Definition node_A : Prefix.t := Prefix.Build 1 "A" "Auth" None None.
Definition node_LOGIN : Prefix.t :=
  Prefix.Build 2 "LOGIN" "Login" None (Some 1).
Definition node_OAUTH : Prefix.t :=
  Prefix.Build 3 "OAUTH" "OAuth" None (Some 2).
Definition example_tree : list Prefix.t :=
  [node_A; node_LOGIN; node_OAUTH].

(** The end-to-end example of the specification: root [AUTH] with the
    event code 4. *)
Definition node_AUTH : Prefix.t := Prefix.Build 1 "AUTH" "Auth" None None.

Definition invalid_credentials (generic : bool) (message : option string)
  : EventCode.t :=
  EventCode.Build "7d8f" 1 4 message None ERROR None false generic false.

Definition example_db (generic : bool) (message : option string)
  : database :=
  Database [node_AUTH] [invalid_credentials generic message].

End Spec.

(* ===================================================================== *)
(** * [kyotsu/api/main.py] *)
(* ===================================================================== *)

Module Main.

(** [ShortUUIDField.parse_obj], on the string [val] of the field's
    value: [f"{val[:9]}...{val[-9:]}"]. *)
Definition ShortUUIDField_parse_obj (val : string) : string :=
  (Py.slice_to 9 val ++ "..." ++ Py.slice_last 9 val)%string.

End Main.

(* ===================================================================== *)
(** * Further specification-side definitions *)
(* ===================================================================== *)

Module Props.

(** A segment of upper-case letters only. *)
Definition upper_segment (s : string) : bool :=
  Spec.nonempty s && Spec.all_chars Py.is_upper s.

(** The pair that identifies an event code. *)
Definition key (e : EventCode.t) : Z * Z :=
  (EventCode.prefix_id e, EventCode.increment e).

(** The rows [news], numbered from [base] on. *)
Fixpoint numbered (base : Z) (news : list EventCode.t) : list EventCode.t :=
  match news with
  | [] => []
  | e :: rest => Triggers.set_increment e base :: numbered (base + 1) rest
  end.

(** The message that the lookup returns for an event code. *)
Definition message_of (e : EventCode.t) : option string :=
  if EventCode.use_generic_message e
  then Some Routes.generic_message
  else EventCode.custom_message e.

(** ** The ranges of the embedding *)

(** A string of ASCII characters (code points below 128). *)
Definition is_ascii (s : string) : bool :=
  Spec.all_chars (fun c => (N_of_ascii c <? 128)%N) s.

(** [sys.int_info.default_max_str_digits]. *)
Definition int_max_str_digits : nat := 4300.

(** The digits that [parse_error_code] hands to [int] are at most
    [int_max_str_digits]. *)
Definition digits_within_limit (code : string) : bool :=
  match Spec.leading_code code with
  | Some (_, d) => (String.length d <=? int_max_str_digits)%nat
  | None => true
  end.

(** Every stored increment is a value of the column's type. *)
Definition int4_rows (T : list EventCode.t) : bool :=
  forallb (fun e => Triggers.in_int4 (EventCode.increment e)) T.

(** [m] is the largest increment under [prefix_id] in [T], or 0 when
    [T] has no row under [prefix_id]. *)
Definition max_increment (T : list EventCode.t) (prefix_id m : Z) : Prop :=
  (forall e, In e T -> EventCode.prefix_id e = prefix_id ->
             EventCode.increment e <= m)
  /\ ((exists e, In e T /\ EventCode.prefix_id e = prefix_id
                 /\ EventCode.increment e = m)
      \/ ((forall e, In e T -> EventCode.prefix_id e <> prefix_id)
          /\ m = 0)).

(** No stored parent id is 0. *)
Definition no_zero_parent (T : list Prefix.t) : Prop :=
  forall p, In p T -> Prefix.parent_prefix_id p <> Some 0.


End Props.

(* ===================================================================== *)
(** * The code grammar *)
(* ===================================================================== *)

Section Grammar.

Import Spec.

Lemma digit_not_alpha_dot c : Re.digit c = true -> Re.alpha_dot c = false.
Proof.
  unfold Re.digit, Re.alpha_dot, Py.is_digit, Py.is_alpha, Py.is_lower,
    Py.is_upper, Py.is_dot, Py.in_range.
  destruct c as [[] [] [] [] [] [] [] []]; vm_compute; congruence.
Qed.

Lemma alpha_dot_not_digit c : Re.alpha_dot c = true -> Re.digit c = false.
Proof.
  intros H. destruct (Re.digit c) eqn:E; [|reflexivity].
  apply digit_not_alpha_dot in E. congruence.
Qed.

Lemma span_empty cls s r : span cls s = (EmptyString, r) -> r = s.
Proof.
  destruct s as [|c s]; simpl; [congruence|].
  destruct (cls c); [|congruence].
  destruct (span cls s); discriminate.
Qed.

(** The candidates of [cls+] start with the longest run. *)
Lemma plus_greedy_hd cls s :
  Re.plus_greedy cls s =
    match span cls s with
    | (EmptyString, _) => []
    | (m, r) => (m, r) :: tl (Re.plus_greedy cls s)
    end.
Proof.
  induction s as [|c s IH]; simpl; [reflexivity|].
  destruct (cls c); [|reflexivity].
  pose proof (span_empty cls s) as Hs.
  destruct (span cls s) as [m r].
  rewrite IH. destruct m; [|reflexivity].
  rewrite (Hs r eq_refl). reflexivity.
Qed.

(** Every later candidate leaves a character of the class behind. *)
Lemma plus_greedy_tl cls s m r :
  In (m, r) (tl (Re.plus_greedy cls s)) ->
  exists c r', r = String c r' /\ cls c = true.
Proof.
  revert m r. induction s as [|c s IH]; simpl; intros m r H; [contradiction|].
  destruct (cls c) eqn:Ec; [|contradiction].
  destruct (Re.plus_greedy cls s) as [|x l] eqn:E; simpl in H; [contradiction|].
  apply in_app_or in H. destruct H as [H|[H|[]]].
  - apply in_map_iff in H. destruct H as [[m' r'] [Heq Hin]].
    inversion Heq; subst. apply (IH m' r). exact Hin.
  - injection H as Hm Hr. subst m r.
    destruct s as [|c' s']; simpl in E; [discriminate|].
    destruct (cls c') eqn:Ec'; [|discriminate].
    eauto.
Qed.

Lemma first_some_none {A B} (k : A -> option B) l :
  (forall a, In a l -> k a = None) -> Re.first_some k l = None.
Proof.
  induction l as [|a l IH]; simpl; intros H; [reflexivity|].
  rewrite (H a (or_introl eq_refl)). apply IH. intros; apply H; now right.
Qed.

Lemma plus_greedy_nil_start cls c s :
  cls c = false -> Re.plus_greedy cls (String c s) = [].
Proof. simpl. now intros ->. Qed.

(** The backtracking matcher agrees with the single left-to-right
    scan. *)
Lemma error_code_pattern_match_scan code :
  Utis.error_code_pattern_match code = leading_code code.
Proof.
  unfold Utis.error_code_pattern_match, leading_code.
  rewrite (plus_greedy_hd Re.alpha_dot code).
  pose proof (plus_greedy_tl Re.alpha_dot code) as Htl.
  destruct (span Re.alpha_dot code) as [p r].
  destruct p as [|c p]; simpl.
  - destruct (span Re.digit r); reflexivity.
  - rewrite (plus_greedy_hd Re.digit r).
    destruct (span Re.digit r) as [d r2].
    destruct d as [|c' d]; simpl; [|reflexivity].
    apply first_some_none. intros [m' r'] Hin. simpl.
    destruct (Htl _ _ Hin) as (c1 & r1 & -> & Hc1).
    rewrite plus_greedy_nil_start; [reflexivity|].
    now apply alpha_dot_not_digit.
Qed.

End Grammar.

Section Strings.

Import Spec.

Lemma all_chars_app cls s1 s2 :
  all_chars cls (s1 ++ s2)%string = all_chars cls s1 && all_chars cls s2.
Proof.
  induction s1 as [|c s1 IH]; simpl; [reflexivity|].
  rewrite IH. now rewrite andb_assoc.
Qed.

Lemma all_chars_weaken (cls cls' : ascii -> bool) s :
  (forall c, cls c = true -> cls' c = true) ->
  all_chars cls s = true -> all_chars cls' s = true.
Proof.
  intros Hw. induction s as [|c s IH]; simpl; [reflexivity|].
  intros H. apply andb_prop in H. destruct H as [Hc Hs].
  rewrite (Hw _ Hc), (IH Hs). reflexivity.
Qed.

Lemma span_all cls p r :
  all_chars cls p = true ->
  match r with
  | EmptyString => True
  | String c _ => cls c = false
  end ->
  span cls (p ++ r)%string = (p, r).
Proof.
  intros Hp Hr. induction p as [|c p IH]; simpl in *.
  - destruct r as [|c r]; [reflexivity|]. simpl. now rewrite Hr.
  - apply andb_prop in Hp. destruct Hp as [Hc Hp].
    rewrite Hc, (IH Hp). reflexivity.
Qed.

Lemma append_empty_r s : (s ++ "")%string = s.
Proof. induction s as [|c s IH]; simpl; congruence. Qed.

Lemma append_assoc s1 s2 s3 :
  ((s1 ++ s2) ++ s3)%string = (s1 ++ (s2 ++ s3))%string.
Proof. induction s1 as [|c s1 IH]; simpl; congruence. Qed.

(** ** [split] after [join] *)

Lemma split_dot_single x : dot_free x = true -> Py.split_dot x = [x].
Proof.
  induction x as [|c x IH]; simpl; [reflexivity|].
  intros H. apply andb_prop in H. destruct H as [Hc Hx].
  apply negb_true_iff in Hc. rewrite Hc, (IH Hx). reflexivity.
Qed.

Lemma split_dot_app x r :
  dot_free x = true ->
  Py.split_dot (x ++ String "." r) = x :: Py.split_dot r.
Proof.
  induction x as [|c x IH]; simpl; [reflexivity|].
  intros H. apply andb_prop in H. destruct H as [Hc Hx].
  apply negb_true_iff in Hc. rewrite Hc, (IH Hx). reflexivity.
Qed.

Lemma split_dot_join S :
  S <> [] -> Forall (fun s => dot_free s = true) S ->
  Py.split_dot (Py.join "." S) = S.
Proof.
  unfold Py.join.
  induction S as [|x S IH]; intros Hne HS; [congruence|].
  inversion HS as [|? ? Hx HS']; subst.
  destruct S as [|y S].
  - simpl. now apply split_dot_single.
  - change (String.concat "." (x :: y :: S))
      with (x ++ String "." (String.concat "." (y :: S)))%string.
    rewrite (split_dot_app _ _ Hx), IH; [reflexivity|discriminate|exact HS'].
Qed.

(** [join] is injective on non-empty chains of dot-free segments. *)
Lemma join_inj S1 S2 :
  S1 <> [] -> S2 <> [] ->
  Forall (fun s => dot_free s = true) S1 ->
  Forall (fun s => dot_free s = true) S2 ->
  Py.join "." S1 = Py.join "." S2 -> S1 = S2.
Proof.
  intros N1 N2 F1 F2 E.
  rewrite <- (split_dot_join S1 N1 F1), <- (split_dot_join S2 N2 F2).
  now rewrite E.
Qed.

(** ** Decimal digits *)

Lemma digit_char_val d :
  0 <= d < 10 -> Py.digit_val (Py.digit_char d) = d /\
                 Re.digit (Py.digit_char d) = true.
Proof.
  intros H.
  assert (d = 0 \/ d = 1 \/ d = 2 \/ d = 3 \/ d = 4 \/ d = 5 \/ d = 6
          \/ d = 7 \/ d = 8 \/ d = 9) as Hd by lia.
  repeat (destruct Hd as [-> | Hd]; [split; reflexivity|]).
  subst; split; reflexivity.
Qed.

Lemma int_acc_app acc s1 s2 :
  Py.int_acc acc (s1 ++ s2) = Py.int_acc (Py.int_acc acc s1) s2.
Proof.
  revert acc. induction s1 as [|c s1 IH]; simpl; intros; [reflexivity|].
  apply IH.
Qed.

Lemma int_replicate_zero k s :
  Py.int (Py.replicate k "0" ++ s) = Py.int s.
Proof.
  unfold Py.int. induction k as [|k IH]; simpl; [reflexivity|].
  exact IH.
Qed.

Lemma to_digits_spec f n :
  0 <= n < 2 ^ Z.of_nat (S f) ->
  Py.int (Py.to_digits (S f) n) = n
  /\ all_chars Re.digit (Py.to_digits (S f) n) = true
  /\ nonempty (Py.to_digits (S f) n) = true.
Proof.
  revert n. induction f as [|f IH]; intros n Hn.
  - assert ((n <? 10) = true) as L by (apply Z.ltb_lt; simpl in Hn; lia).
    simpl. rewrite L.
    destruct (digit_char_val n) as [V D]; [simpl in Hn; lia|].
    unfold Py.int; simpl. rewrite V, D. auto.
  - remember (S f) as f'. simpl.
    destruct (n <? 10) eqn:L.
    + apply Z.ltb_lt in L.
      destruct (digit_char_val n) as [V D]; [lia|].
      unfold Py.int; simpl. rewrite V, D. auto.
    + apply Z.ltb_ge in L.
      assert (0 <= n / 10 < 2 ^ Z.of_nat f') as Hq.
      { split; [apply Z.div_pos; lia|].
        apply Z.div_lt_upper_bound; [lia|].
        replace (Z.of_nat (S f')) with (Z.succ (Z.of_nat f')) in Hn by lia.
        rewrite Z.pow_succ_r in Hn by lia. lia. }
      destruct (IH _ Hq) as (I & A & N).
      destruct (digit_char_val (n mod 10)) as [V D];
        [apply Z.mod_pos_bound; lia|].
      unfold Py.int in *. rewrite int_acc_app, I.
      cbn [Py.int_acc]. rewrite V, all_chars_app, A.
      cbn [all_chars andb]. rewrite D.
      split; [|split].
      * pose proof (Z.div_mod n 10). lia.
      * reflexivity.
      * destruct (Py.to_digits f' (n / 10)); [discriminate|reflexivity].
Qed.

Lemma digits_fuel_bound n :
  0 <= n -> 0 <= n < 2 ^ Z.of_nat (Py.digits_fuel n).
Proof.
  intros H. split; [exact H|]. unfold Py.digits_fuel.
  rewrite Nat2Z.inj_succ, Z2Nat.id by apply Z.log2_nonneg.
  destruct (Z.eq_dec n 0) as [->|Hz]; [reflexivity|].
  apply Z.log2_spec. lia.
Qed.

(** [f"{n:0>4}"] of a non-negative [n] is a non-empty run of digits
    that [int] reads back as [n]. *)
Lemma format_0r4_spec n :
  0 <= n ->
  Py.int (Py.format_0r4 n) = n
  /\ all_chars Re.digit (Py.format_0r4 n) = true
  /\ nonempty (Py.format_0r4 n) = true.
Proof.
  intros H. unfold Py.format_0r4, Py.rjust, Py.str.
  assert ((n <? 0) = false) as -> by (apply Z.ltb_ge; lia).
  destruct (to_digits_spec _ _ (digits_fuel_bound n H)) as (I & A & N).
  fold (Py.digits_fuel n) in *.
  rewrite int_replicate_zero, all_chars_app, A, I.
  repeat split.
  - rewrite andb_true_r.
    generalize (4 - String.length (Py.to_digits (Py.digits_fuel n) n))%nat.
    intros k; induction k; simpl; auto.
  - destruct (Py.to_digits (Py.digits_fuel n) n); [discriminate|].
    destruct (4 - _)%nat; reflexivity.
Qed.

End Strings.

Section ParseFormat.

Import Spec.

Lemma alpha_is_alpha_dot c : Py.is_alpha c = true -> Re.alpha_dot c = true.
Proof. unfold Re.alpha_dot. now intros ->. Qed.

Lemma alpha_is_not_dot c :
  Py.is_alpha c = true -> negb (Py.is_dot c) = true.
Proof.
  unfold Py.is_alpha, Py.is_lower, Py.is_upper, Py.is_dot, Py.in_range.
  destruct c as [[] [] [] [] [] [] [] []]; vm_compute; congruence.
Qed.

Lemma alpha_segment_dot_free s :
  alpha_segment s = true -> dot_free s = true.
Proof.
  unfold alpha_segment, dot_free. intros H.
  apply andb_prop in H. destruct H as [_ H].
  revert H. apply all_chars_weaken. exact alpha_is_not_dot.
Qed.

Lemma join_alpha_dot S :
  Forall (fun s => alpha_segment s = true) S ->
  all_chars Re.alpha_dot (Py.join "." S) = true.
Proof.
  unfold Py.join. induction S as [|x S IH]; intros HS; [reflexivity|].
  inversion HS as [|? ? Hx HS']; subst.
  assert (all_chars Re.alpha_dot x = true) as Ax.
  { unfold alpha_segment in Hx. apply andb_prop in Hx.
    destruct Hx as [_ Hx]. revert Hx.
    apply all_chars_weaken. exact alpha_is_alpha_dot. }
  destruct S as [|y S]; [exact Ax|].
  change (String.concat "." (x :: y :: S))
    with (x ++ String "." (String.concat "." (y :: S)))%string.
  rewrite all_chars_app, Ax. cbn [all_chars andb].
  rewrite (IH HS'). reflexivity.
Qed.

Lemma join_nonempty S :
  S <> [] -> Forall (fun s => alpha_segment s = true) S ->
  nonempty (Py.join "." S) = true.
Proof.
  unfold Py.join. destruct S as [|x S]; intros Hne HS; [congruence|].
  inversion HS as [|? ? Hx _]; subst.
  unfold alpha_segment in Hx. apply andb_prop in Hx. destruct Hx as [Hx _].
  destruct x; [discriminate|]. destruct S; reflexivity.
Qed.

(** What [parse_error_code] does on any input: it reads the leading
    code, and raises the [AttributeError] of the failed match when
    there is none. *)
Lemma parse_error_code_scan code :
  Utis.parse_error_code code =
    match leading_code code with
    | None => Raise AttributeError
    | Some (p, d) => Ok (Py.split_dot p, Py.int d)
    end.
Proof.
  unfold Utis.parse_error_code.
  now rewrite error_code_pattern_match_scan.
Qed.

Lemma span_stops cls c s :
  cls c = false -> span cls (String c s) = (EmptyString, String c s).
Proof. simpl. now intros ->. Qed.

Lemma leading_code_no_digit code :
  all_chars (fun c => negb (Re.digit c)) code = true ->
  leading_code code = None.
Proof.
  unfold leading_code. intros H.
  assert (forall s, all_chars (fun c => negb (Re.digit c)) s = true ->
                    fst (span Re.digit s) = EmptyString) as D.
  { intros [|c s]; simpl; [reflexivity|]. intros Hs.
    apply andb_prop in Hs. destruct Hs as [Hc _].
    apply negb_true_iff in Hc. now rewrite Hc. }
  assert (all_chars (fun c => negb (Re.digit c))
                    (snd (span Re.alpha_dot code)) = true) as R.
  { clear D. induction code as [|c s IH]; simpl in *; [reflexivity|].
    apply andb_prop in H. destruct H as [Hc Hs].
    destruct (Re.alpha_dot c).
    - specialize (IH Hs). destruct (span Re.alpha_dot s). exact IH.
    - simpl. now rewrite Hc, Hs. }
  destruct (span Re.alpha_dot code) as [p r]. simpl in R.
  specialize (D r R). destruct (span Re.digit r) as [d r']. simpl in D.
  subst d. now rewrite andb_false_r.
Qed.

Lemma span_fst_all cls s : all_chars cls (fst (span cls s)) = true.
Proof.
  induction s as [|c s IH]; simpl; [reflexivity|].
  destruct (cls c) eqn:E; [|reflexivity].
  destruct (span cls s) as [m r]. simpl in *. now rewrite E, IH.
Qed.

Lemma split_dot_letters p :
  all_chars Re.alpha_dot p = true ->
  Forall (fun s => all_chars Py.is_alpha s = true) (Py.split_dot p).
Proof.
  induction p as [|c p IH]; simpl; intros H.
  - repeat constructor.
  - apply andb_prop in H. destruct H as [Hc Hp]. specialize (IH Hp).
    destruct (Py.is_dot c) eqn:D.
    + constructor; [reflexivity|exact IH].
    + unfold Re.alpha_dot in Hc. rewrite D, orb_false_r in Hc.
      destruct (Py.split_dot p) as [|field fields].
      * repeat constructor. simpl. now rewrite Hc.
      * inversion IH as [|? ? Hf Hfs]; subst.
        constructor; [|exact Hfs]. simpl. now rewrite Hc, Hf.
Qed.

(** Whatever [parse_error_code] returns, its segments hold letters
    only: no chain with another character comes back from a parse. *)
Lemma parse_error_code_letters code S N :
  Utis.parse_error_code code = Ok (S, N) ->
  Forall (fun s => all_chars Py.is_alpha s = true) S.
Proof.
  rewrite parse_error_code_scan. unfold leading_code.
  pose proof (span_fst_all Re.alpha_dot code) as Hp.
  destruct (span Re.alpha_dot code) as [p r].
  destruct (span Re.digit r) as [d r'].
  destruct (nonempty p && nonempty d); [|discriminate].
  intros [= <- _]. now apply split_dot_letters.
Qed.

End ParseFormat.

(* ===================================================================== *)
(** * C3: which inputs [parse_error_code] rejects *)
(* ===================================================================== *)

(** C3, as stated, fails: the input ["A..B1"] has an empty segment, so
    it is outside the grammar [<segment>(.<segment>)*<digits>], and
    [parse_error_code] returns a result for it; so does ["A1$"], which
    has a character that is neither a letter, a dot nor a digit. *)
Lemma parse_error_code_accepts_outside_grammar :
  Spec.code_grammar "A..B1" = false
  /\ Utis.parse_error_code "A..B1" = Ok (["A"; ""; "B"]%string, 1)
  /\ Spec.code_grammar "A1$" = false
  /\ Utis.parse_error_code "A1$" = Ok (["A"]%string, 1).
Proof. repeat split; reflexivity. Qed.

(** C3 (amended): on an ASCII input whose run of digits is within the
    limit of [int], [parse_error_code] fails exactly when the input
    does not begin with a non-empty run of letters and dots followed by
    a digit, and then by the [AttributeError] of the failed match (the
    code has no error type of its own).  So it fails on the empty
    string, on ["ABC"], on every input without a digit and on every
    input whose first character is neither a letter nor a dot; an input
    that begins with such a run and a digit is parsed, whatever
    follows. *)
Theorem parse_error_code_fails_iff (code : string) :
  Props.is_ascii code = true ->
  Props.digits_within_limit code = true ->
  (Utis.parse_error_code code = Raise AttributeError
   <-> Spec.leading_code code = None)
  /\ (forall e, Utis.parse_error_code code = Raise e -> e = AttributeError)
  /\ (forall p d, Spec.leading_code code = Some (p, d) ->
        Utis.parse_error_code code = Ok (Py.split_dot p, Py.int d))
  /\ (Spec.all_chars (fun c => negb (Re.digit c)) code = true ->
        Utis.parse_error_code code = Raise AttributeError)
  /\ (forall c s, code = String c s -> Re.alpha_dot c = false ->
        Utis.parse_error_code code = Raise AttributeError)
  /\ Utis.parse_error_code "" = Raise AttributeError
  /\ Utis.parse_error_code "ABC" = Raise AttributeError.
Proof.
  intros _ _.
  rewrite parse_error_code_scan.
  repeat split.
  - destruct (Spec.leading_code code) as [[p d]|]; [discriminate|reflexivity].
  - now intros ->.
  - intros e. destruct (Spec.leading_code code) as [[p d]|]; congruence.
  - now intros p d ->.
  - intros H. now rewrite (leading_code_no_digit code H).
  - intros c s -> Hc. unfold Spec.leading_code.
    rewrite (span_stops Re.alpha_dot c s Hc).
    destruct (Spec.span Re.digit (String c s)). reflexivity.
Qed.

Lemma parse_error_code_fails_iff_witness :
  (Utis.parse_error_code "A.B12$" = Raise AttributeError
   <-> Spec.leading_code "A.B12$" = None)
  /\ (forall p d, Spec.leading_code "A.B12$" = Some (p, d) ->
        Utis.parse_error_code "A.B12$" = Ok (Py.split_dot p, Py.int d)).
Proof.
  pose proof (parse_error_code_fails_iff "A.B12$" eq_refl eq_refl) as H.
  split; [exact (proj1 H)|exact (proj1 (proj2 (proj2 H)))].
Defined.

(* ===================================================================== *)
(** * C4: [parse] after [format] *)
(* ===================================================================== *)

(** C4, as stated, fails: ["A1"] is a valid segment (non-empty, no dot,
    no leading or trailing whitespace), and the code formatted from the
    chain [["A1"]] and the increment 5 parses to the chain [["A"]] and
    the increment 10005. *)
Lemma parse_format_digit_segment :
  Forall (fun s => Spec.valid_segment s = true) ["A1"%string]
  /\ 0 <= 5
  /\ Utis.parse_error_code (Spec.format ["A1"%string] 5)
     = Ok (["A"%string], 10005)
  /\ Utis.parse_error_code (Spec.format ["A1"%string] 5)
     <> Ok (["A1"%string], 5).
Proof.
  repeat split; try reflexivity; try lia.
  - repeat constructor.
  - discriminate.
Qed.

(** C4 (amended): for every non-empty chain [S] of segments that are
    non-empty runs of ASCII letters and every increment [N >= 0],
    parsing the formatted code gives back [(S, N)]. *)
Theorem parse_format_roundtrip (S : list string) (N : Z) :
  S <> [] ->
  Forall (fun s => Spec.alpha_segment s = true) S ->
  0 <= N ->
  Utis.parse_error_code (Spec.format S N) = Ok (S, N).
Proof.
  intros Hne HS HN.
  rewrite parse_error_code_scan.
  unfold Spec.leading_code, Spec.format, Models.EventCode_format.
  destruct (format_0r4_spec N HN) as (Hi & Ha & Hn).
  rewrite (span_all Re.alpha_dot).
  - rewrite <- (append_empty_r (Py.format_0r4 N)) at 1.
    rewrite (span_all Re.digit _ "" Ha I).
    rewrite (join_nonempty S Hne HS), Hn. simpl.
    rewrite Hi, split_dot_join; [reflexivity|exact Hne|].
    revert HS. apply Forall_impl. exact alpha_segment_dot_free.
  - now apply join_alpha_dot.
  - destruct (Py.format_0r4 N) as [|c s]; [exact I|].
    simpl in Ha. apply andb_prop in Ha. destruct Ha as [Hc _].
    now apply digit_not_alpha_dot.
Qed.

Lemma parse_format_roundtrip_witness :
  Utis.parse_error_code (Spec.format ["AUTH"; "LOGIN"]%string 4)
  = Ok (["AUTH"; "LOGIN"]%string, 4).
Proof.
  apply parse_format_roundtrip.
  - discriminate.
  - repeat constructor.
  - lia.
Defined.

(* ===================================================================== *)
(** * C2: the increment allocator *)
(* ===================================================================== *)

Section Allocator.

Import Triggers.

Lemma sql_max_spec l :
  match sql_max l with
  | None => l = []
  | Some m => In m l /\ forall x, In x l -> x <= m
  end.
Proof.
  induction l as [|a l IH]; simpl; [reflexivity|].
  destruct (sql_max l) as [m|].
  - destruct IH as [Hin Hle]. split.
    + destruct (Z.max_spec a m) as [[_ ->]|[_ ->]]; auto.
    + intros x [<-|Hx]; [lia|]. specialize (Hle x Hx). lia.
  - subst l. split; [now left|]. intros x [<-|[]]. lia.
Qed.

Lemma sql_max_snoc l x :
  sql_max (l ++ [x]) =
    Some (match sql_max l with
          | None => x
          | Some m => Z.max x m
          end).
Proof.
  induction l as [|a l IH]; simpl; [reflexivity|].
  rewrite IH. destruct (sql_max l) as [m|]; f_equal; lia.
Qed.

Lemma next_increment_other T NEW q :
  EventCode.prefix_id NEW <> q ->
  next_increment (insert_event_code T NEW) q = next_increment T q.
Proof.
  intros H. unfold next_increment, insert_event_code.
  rewrite filter_app. simpl.
  apply Z.eqb_neq in H. rewrite H, app_nil_r. reflexivity.
Qed.

Lemma next_increment_same T NEW :
  next_increment (insert_event_code T NEW) (EventCode.prefix_id NEW)
  = next_increment T (EventCode.prefix_id NEW) + 1.
Proof.
  unfold next_increment at 1. unfold insert_event_code.
  rewrite filter_app. simpl. rewrite Z.eqb_refl, map_app. simpl.
  rewrite sql_max_snoc. unfold next_increment.
  destruct (sql_max _) as [m|]; simpl; lia.
Qed.

(** The value under [COALESCE] is the largest increment under the
    prefix, 0 by default. *)
Lemma coalesce_max_increment T p :
  Props.max_increment T p
    (coalesce
       (sql_max (map EventCode.increment
                     (filter (fun e => EventCode.prefix_id e =? p) T))) 0).
Proof.
  pose proof (sql_max_spec
                (map EventCode.increment
                     (filter (fun e => EventCode.prefix_id e =? p) T)))
    as Hmax.
  destruct (sql_max _) as [x|]; simpl.
  - destruct Hmax as [Hin Hle]. split.
    + intros e He Hp. apply Hle, in_map, filter_In.
      split; [exact He|now apply Z.eqb_eq].
    + left. apply in_map_iff in Hin. destruct Hin as (e & Hx & He).
      apply filter_In in He. destruct He as [He Hp].
      apply Z.eqb_eq in Hp. now exists e.
  - assert (forall e, In e T -> EventCode.prefix_id e <> p) as Hnone.
    { intros e He Hp.
      assert (In e (filter (fun e => EventCode.prefix_id e =? p) T)) as Hin
          by (apply filter_In; split; [exact He|now apply Z.eqb_eq]).
      apply (in_map EventCode.increment) in Hin. rewrite Hmax in Hin.
      destruct Hin. }
    split; [|now right]. intros e He Hp. now destruct (Hnone e He).
Qed.



(** In a table of the column's type, the largest increment is in
    range. *)
Lemma max_increment_in_int4 T p m :
  Props.int4_rows T = true -> Props.max_increment T p m ->
  int4_min <= m <= int4_max.
Proof.
  intros HT [_ [(e & He & _ & <-)|[_ ->]]].
  - unfold Props.int4_rows in HT. rewrite forallb_forall in HT.
    specialize (HT e He). unfold in_int4 in HT.
    apply andb_prop in HT. destruct HT as [H1 H2].
    apply Z.leb_le in H1, H2. lia.
  - unfold int4_min, int4_max. lia.
Qed.

(** With the sum in range, the function returns the row with the next
    increment, and the trigger stores it. *)
Lemma event_code_auto_increment_in_range T NEW :
  in_int4 (next_increment T (EventCode.prefix_id NEW)) = true ->
  event_code_auto_increment T NEW
  = Some (auto_event_code_increment_function T NEW).
Proof.
  intros H. unfold event_code_auto_increment, int4pl.
  unfold next_increment in H. rewrite H. reflexivity.
Qed.

Lemma event_code_auto_increment_refused T NEW :
  in_int4 (next_increment T (EventCode.prefix_id NEW)) = false ->
  event_code_auto_increment T NEW = None.
Proof.
  intros H. unfold event_code_auto_increment, int4pl.
  unfold next_increment in H. rewrite H. reflexivity.
Qed.

Lemma next_increment_in_int4 T p :
  Props.int4_rows T = true ->
  in_int4 (next_increment T p) = (next_increment T p <=? int4_max).
Proof.
  intros HT.
  pose proof (max_increment_in_int4 T p _ HT (coalesce_max_increment T p))
    as Hr.
  unfold in_int4, next_increment.
  replace (int4_min <=? _ + 1) with true; [reflexivity|].
  symmetry. apply Z.leb_le. lia.
Qed.

Lemma trigger_in_range T NEW :
  Props.int4_rows T = true ->
  next_increment T (EventCode.prefix_id NEW) <= int4_max ->
  event_code_auto_increment_trigger T NEW = Some (insert_event_code T NEW)
  /\ Props.int4_rows (insert_event_code T NEW) = true.
Proof.
  intros HT Hle.
  assert (in_int4 (next_increment T (EventCode.prefix_id NEW)) = true) as Hin.
  { rewrite next_increment_in_int4 by exact HT. now apply Z.leb_le. }
  split.
  - unfold event_code_auto_increment_trigger.
    now rewrite event_code_auto_increment_in_range.
  - unfold insert_event_code, Props.int4_rows.
    rewrite forallb_app. fold (Props.int4_rows T). rewrite HT. simpl.
    now rewrite Hin.
Qed.

Lemma trigger_refused T NEW :
  Props.int4_rows T = true ->
  int4_max < next_increment T (EventCode.prefix_id NEW) ->
  event_code_auto_increment_trigger T NEW = None.
Proof.
  intros HT Hlt. unfold event_code_auto_increment_trigger.
  rewrite event_code_auto_increment_refused; [reflexivity|].
  rewrite next_increment_in_int4 by exact HT. apply Z.leb_gt. lia.
Qed.


(** Creations in a row under one prefix. *)
Lemma insert_all_numbered news : forall T p,
  Props.int4_rows T = true ->
  (forall e, In e news -> EventCode.prefix_id e = p) ->
  next_increment T p + Z.of_nat (List.length news) <= int4_max + 1 ->
  insert_all T news = Some (T ++ Props.numbered (next_increment T p) news).
Proof.
  induction news as [|e news IH]; intros T p HT Hp Hb; simpl.
  - now rewrite app_nil_r.
  - assert (EventCode.prefix_id e = p) as He by (apply Hp; now left).
    cbn [List.length] in Hb.
    destruct (trigger_in_range T e HT) as [Htr HT']; [rewrite He; lia|].
    rewrite Htr.
    pose proof (next_increment_same T e) as Hn. rewrite He in Hn.
    rewrite (IH _ p HT'); [|intros; apply Hp; now right|rewrite Hn; lia].
    rewrite Hn. unfold insert_event_code, auto_event_code_increment_function.
    rewrite He, <- app_assoc. reflexivity.
Qed.

Lemma insert_all_refused news : forall T p,
  Props.int4_rows T = true ->
  (forall e, In e news -> EventCode.prefix_id e = p) ->
  int4_max + 1 < next_increment T p + Z.of_nat (List.length news) ->
  insert_all T news = None.
Proof.
  induction news as [|e news IH]; intros T p HT Hp Hb; simpl.
  - exfalso.
    pose proof (max_increment_in_int4 T p _ HT (coalesce_max_increment T p)).
    unfold next_increment in Hb. cbn [List.length Z.of_nat] in Hb. lia.
  - assert (EventCode.prefix_id e = p) as He by (apply Hp; now left).
    cbn [List.length] in Hb.
    destruct (Z_le_gt_dec (next_increment T p) int4_max) as [Hle|Hgt].
    + destruct (trigger_in_range T e HT) as [Htr HT']; [now rewrite He|].
      rewrite Htr.
      pose proof (next_increment_same T e) as Hn. rewrite He in Hn.
      apply (IH _ p HT'); [intros; apply Hp; now right|rewrite Hn; lia].
    + rewrite trigger_refused; [reflexivity|exact HT|rewrite He; lia].
Qed.

End Allocator.




(* ===================================================================== *)
(** * C1: the path resolver *)
(* ===================================================================== *)

Lemma recursive_nil T : Utis.recursive T [] = [].
Proof. unfold Utis.recursive. induction T; simpl; auto. Qed.

Section Resolver.

Import Spec.

Variable T : list Prefix.t.

Lemma join_snoc ch x :
  ch <> [] -> Py.join "." (ch ++ [x]) = (Py.join "." ch ++ "." ++ x)%string.
Proof.
  unfold Py.join. induction ch as [|y ch IH]; intros Hne; [congruence|].
  destruct ch as [|z ch]; [reflexivity|].
  change (String.concat "." ((y :: z :: ch) ++ [x]))
    with (y ++ "." ++ String.concat "." ((z :: ch) ++ [x]))%string.
  rewrite IH by discriminate.
  change (String.concat "." (y :: z :: ch))
    with (y ++ "." ++ String.concat "." (z :: ch))%string.
  now rewrite !append_assoc.
Qed.

Lemma chain_inv n ch :
  chain T n ch -> In n T /\ ch <> [] /\ (0 < List.length ch)%nat.
Proof.
  intros H. destruct H as [n Hn _|n m ch Hn _ _ _];
    (split; [exact Hn|]); split.
  - discriminate.
  - simpl. lia.
  - destruct ch; discriminate.
  - rewrite length_app. simpl. lia.
Qed.

(** ** Every level holds the nodes of one depth *)

Lemma level_sound k r :
  In r (level T k) ->
  exists n ch, chain T n ch /\ List.length ch = S k
              /\ r = row_of n (Py.join "." ch).
Proof.
  revert r. induction k as [|k IH]; simpl; intros r Hr.
  - unfold Utis.anchor in Hr. apply in_map_iff in Hr.
    destruct Hr as (n & <- & Hn). apply filter_In in Hn.
    destruct Hn as [Hn Hroot].
    exists n, [Prefix.prefix n]. repeat split.
    apply chain_root; [exact Hn|].
    destruct (Prefix.parent_prefix_id n); [discriminate|reflexivity].
  - unfold Utis.recursive in Hr. apply in_flat_map in Hr.
    destruct Hr as (p & Hp & Hr). apply in_flat_map in Hr.
    destruct Hr as (a & Ha & Hr). unfold Utis.extend in Hr.
    destruct (Prefix.parent_prefix_id p) as [q|] eqn:Eq; simpl in Hr;
      [|contradiction].
    destruct (Z.eqb_spec q (Utis.c_id a)) as [->|_]; [|contradiction].
    destruct Hr as [<-|[]].
    destruct (IH a Ha) as (m & ch & Hc & Hl & ->).
    exists p, (ch ++ [Prefix.prefix p]). repeat split.
    + apply chain_child with m; auto. now apply chain_inv in Hc.
    + rewrite length_app. simpl. lia.
    + unfold row_of. simpl. rewrite Eq, join_snoc; [reflexivity|].
      now apply chain_inv in Hc.
Qed.

Lemma level_complete n ch :
  chain T n ch ->
  In (row_of n (Py.join "." ch)) (level T (List.length ch - 1)).
Proof.
  induction 1 as [n Hn Hroot|n m ch Hn Hm Hp Hc IH].
  - simpl. unfold Utis.anchor. apply in_map_iff. exists n. split.
    + reflexivity.
    + apply filter_In. split; [exact Hn|]. now rewrite Hroot.
  - destruct (chain_inv _ _ Hc) as (_ & Hne & Hlen).
    rewrite length_app. simpl.
    replace (List.length ch + 1 - 1)%nat with (S (List.length ch - 1)) by lia.
    simpl. unfold Utis.recursive. apply in_flat_map. exists n.
    split; [exact Hn|]. apply in_flat_map.
    exists (row_of m (Py.join "." ch)). split; [exact IH|].
    unfold Utis.extend, row_of. simpl. rewrite Hp. simpl.
    rewrite Z.eqb_refl, join_snoc by exact Hne. now left.
Qed.

Lemma level_empty_after k j :
  level T k = [] -> (k <= j)%nat -> level T j = [].
Proof.
  intros Hk. induction 1 as [|j _ IH]; [exact Hk|].
  simpl. rewrite IH. apply recursive_nil.
Qed.

(** ** Consequences of the primary key *)

Hypothesis PK : primary_key T.

Lemma same_id n m : In n T -> In m T -> Prefix.id n = Prefix.id m -> n = m.
Proof.
  unfold primary_key in PK. revert PK.
  induction T as [|p T' IH]; simpl; intros ND Hn Hm E; [contradiction|].
  inversion ND as [|? ? Hnotin ND']; subst.
  destruct Hn as [<-|Hn], Hm as [<-|Hm]; auto.
  - exfalso. apply Hnotin. rewrite E. now apply in_map.
  - exfalso. apply Hnotin. rewrite <- E. now apply in_map.
Qed.

(** A node has one chain. *)
Lemma chain_functional n ch ch' : chain T n ch -> chain T n ch' -> ch = ch'.
Proof.
  intros H. revert ch'.
  induction H as [n Hn Hroot|n m ch Hn Hm Hp Hc IH]; intros ch' H'.
  - destruct H' as [|n m' ch' _ _ Hp' _]; [reflexivity|congruence].
  - destruct H' as [n _ Hroot|n m' ch' _ Hm' Hp' Hc']; [congruence|].
    assert (m' = m) as -> by (apply same_id; congruence).
    now rewrite (IH _ Hc').
Qed.

(** The ancestors of a node are pairwise different rows. *)
Lemma chain_ancestors n ch :
  chain T n ch ->
  exists L, List.length L = List.length ch /\ NoDup L /\ incl L T
            /\ forall m, In m L ->
                 exists ch', chain T m ch'
                            /\ (List.length ch' <= List.length ch)%nat.
Proof.
  induction 1 as [n Hn Hroot|n m ch Hn Hm Hp Hc (L & Hl & ND & Hi & Ha)].
  - exists [n]. repeat split.
    + constructor; [intros []|constructor].
    + intros x [<-|[]]. exact Hn.
    + intros x [<-|[]]. exists [Prefix.prefix n].
      split; [now apply chain_root|lia].
  - exists (n :: L). rewrite length_app. simpl. repeat split.
    + lia.
    + constructor; [|exact ND]. intros Hin.
      destruct (Ha _ Hin) as (ch' & Hc' & Hle).
      pose proof (chain_functional _ _ _ Hc'
                    (chain_child T n m ch Hn Hm Hp Hc)) as E.
      subst ch'. rewrite length_app in Hle. simpl in Hle. lia.
    + intros x [<-|Hx]; [exact Hn|now apply Hi].
    + intros x [<-|Hx].
      * exists (ch ++ [Prefix.prefix n]). split.
        -- now apply chain_child with m.
        -- rewrite length_app. simpl. lia.
      * destruct (Ha _ Hx) as (ch' & Hc' & Hle).
        exists ch'. split; [exact Hc'|lia].
Qed.

Lemma chain_length n ch : chain T n ch -> (List.length ch <= List.length T)%nat.
Proof.
  intros H. destruct (chain_ancestors _ _ H) as (L & <- & ND & Hi & _).
  now apply NoDup_incl_length.
Qed.

(** The recursion stops: no level beyond the number of rows. *)
Lemma level_bound k : level T k <> [] -> (k < List.length T)%nat.
Proof.
  intros Hne. destruct (level T k) as [|r l] eqn:E; [congruence|].
  destruct (level_sound k r) as (n & ch & Hc & Hl & _);
    [rewrite E; now left|].
  apply chain_length in Hc. lia.
Qed.

End Resolver.

Lemma nodup_map_filter {A B : Type} (f : A -> B) (g : A -> bool) l :
  NoDup (map f l) -> NoDup (map f (filter g l)).
Proof.
  induction l as [|a l IH]; simpl; intros ND; [constructor|].
  inversion ND as [|? ? Hnotin ND']; subst.
  destruct (g a); simpl; [|now apply IH].
  constructor; [|now apply IH].
  intros Hin. apply Hnotin. apply in_map_iff in Hin.
  destruct Hin as (x & Hx & Hin). apply filter_In in Hin.
  apply in_map_iff. exists x. tauto.
Qed.

Lemma nodup_singleton {A : Type} (l : list A) x :
  NoDup l -> In x l -> (forall y, In y l -> y = x) -> l = [x].
Proof.
  intros ND Hin Hall. destruct l as [|a l]; [contradiction|].
  assert (a = x) as -> by (apply Hall; now left).
  destruct l as [|b l]; [reflexivity|].
  assert (b = x) as -> by (apply Hall; right; now left).
  inversion ND as [|? ? Hnotin _]; subst. exfalso. apply Hnotin. now left.
Qed.

Lemma insert_row_perm r l : Permutation (Utis.insert_row r l) (r :: l).
Proof.
  induction l as [|a l IH]; simpl; [reflexivity|].
  destruct (String.leb _ _); [reflexivity|].
  rewrite IH. apply perm_swap.
Qed.

Lemma order_by_perm l : Permutation (Utis.order_by_composed_prefix l) l.
Proof.
  unfold Utis.order_by_composed_prefix.
  induction l as [|a l IH]; simpl; [reflexivity|].
  rewrite insert_row_perm. now constructor.
Qed.

(** One row of the working table at most extends a given [Prefix] row. *)
Lemma extend_at_most_one p W :
  NoDup (map Utis.c_id W) ->
  flat_map (Utis.extend p) W = []
  \/ exists r, flat_map (Utis.extend p) W = [r] /\ Utis.c_id r = Prefix.id p.
Proof.
  induction W as [|a W IH]; simpl; intros ND; [now left|].
  inversion ND as [|? ? Hnotin ND']; subst.
  pose proof (@eq_refl _ (Utis.extend p a)) as Ea.
  unfold Utis.extend at 2 in Ea.
  destruct (Utis.sql_eq (Prefix.parent_prefix_id p) (Utis.c_id a)) eqn:E;
    rewrite Ea; simpl; [|now apply IH].
  assert (flat_map (Utis.extend p) W = []) as ->;
    [|right; eexists; split; reflexivity].
  clear IH ND ND' Ea. induction W as [|b W IHW]; simpl; [reflexivity|].
  pose proof (@eq_refl _ (Utis.extend p b)) as Eb.
  unfold Utis.extend at 2 in Eb.
  destruct (Utis.sql_eq (Prefix.parent_prefix_id p) (Utis.c_id b)) eqn:E'.
  - exfalso. apply Hnotin. left. unfold Utis.sql_eq in *.
    destruct (Prefix.parent_prefix_id p); [|discriminate].
    apply Z.eqb_eq in E, E'. congruence.
  - rewrite Eb. simpl. apply IHW. intros H. apply Hnotin. now right.
Qed.

Lemma recursive_nodup T W :
  NoDup (map Prefix.id T) -> NoDup (map Utis.c_id W) ->
  NoDup (map Utis.c_id (Utis.recursive T W))
  /\ incl (map Utis.c_id (Utis.recursive T W)) (map Prefix.id T).
Proof.
  intros NT NW. unfold Utis.recursive.
  induction T as [|p T IH]; simpl.
  - split; [constructor|intros x []].
  - inversion NT as [|? ? Hnotin NT']; subst.
    destruct (IH NT') as [ND Hincl].
    destruct (extend_at_most_one p W NW) as [->|(r & -> & Hr)]; simpl.
    + split; [exact ND|]. intros x Hx. right. now apply Hincl.
    + rewrite Hr. split.
      * constructor; [|exact ND]. intros Hin. apply Hnotin. now apply Hincl.
      * intros x [<-|Hx]; [now left|right; now apply Hincl].
Qed.

Lemma anchor_nodup T :
  NoDup (map Prefix.id T) -> NoDup (map Utis.c_id (Utis.anchor T)).
Proof.
  intros ND. unfold Utis.anchor. rewrite map_map. simpl.
  now apply nodup_map_filter.
Qed.

Lemma level_nodup T k :
  Spec.primary_key T -> NoDup (map Utis.c_id (Spec.level T k)).
Proof.
  intros PK. induction k as [|k IH]; simpl.
  - now apply anchor_nodup.
  - now apply recursive_nodup.
Qed.

Lemma union_all_nil fuel T : Utis.union_all fuel T [] = Ok [].
Proof. destruct fuel; reflexivity. Qed.

Section Query.

Import Spec.

Variable T : list Prefix.t.
Hypothesis PK : primary_key T.

(** The fixed point is reached: with as many iterations as [T] has
    rows, [union_all] returns all levels, each node at most once. *)
Lemma union_all_levels fuel k :
  (List.length T <= k + fuel)%nat ->
  exists rows,
    Utis.union_all fuel T (level T k) = Ok rows
    /\ (forall r, In r rows <-> exists j, (k <= j)%nat /\ In r (level T j))
    /\ NoDup (map Utis.c_id rows).
Proof.
  revert k. induction fuel as [|fuel IH]; intros k Hk.
  - assert (level T k = []) as E.
    { destruct (level T k) eqn:E; [reflexivity|].
      assert (k < List.length T)%nat; [|lia].
      apply (level_bound T PK). rewrite E. discriminate. }
    rewrite E. exists []. split; [reflexivity|]. split; [|constructor].
    intros r. split; [intros []|]. intros (j & Hj & Hin).
    now rewrite (level_empty_after T k j E Hj) in Hin.
  - destruct (level T k) as [|r0 l] eqn:E.
    + exists []. split; [reflexivity|]. split; [|constructor].
      intros r. split; [intros []|]. intros (j & Hj & Hin).
      now rewrite (level_empty_after T k j E Hj) in Hin.
    + destruct (IH (S k)) as (rows & Hrows & Hin & ND); [lia|].
      simpl in Hrows. rewrite E in Hrows.
      cbn [Utis.union_all]. rewrite Hrows. simpl.
      exists (r0 :: l ++ rows). split; [reflexivity|].
      split.
      * intros r. change (r0 :: l ++ rows) with ((r0 :: l) ++ rows).
        rewrite <- E, in_app_iff, Hin. split.
        -- intros [H|(j & Hj & H)]; [exists k; auto|exists j; split; [lia|auto]].
        -- intros (j & Hj & H).
           destruct (Nat.eq_dec j k) as [->|Hne]; [now left|].
           right. exists j. split; [lia|exact H].
      * change (r0 :: l ++ rows) with ((r0 :: l) ++ rows).
        rewrite <- E, map_app. apply NoDup_app.
        -- now apply level_nodup.
        -- exact ND.
        -- intros i H1 H2.
           apply in_map_iff in H1. destruct H1 as (r1 & <- & H1).
           apply in_map_iff in H2. destruct H2 as (r2 & Hid & H2).
           apply Hin in H2. destruct H2 as (j & Hj & H2).
           destruct (level_sound T k r1 H1) as (n1 & c1 & Hc1 & Hl1 & ->).
           destruct (level_sound T j r2 H2) as (n2 & c2 & Hc2 & Hl2 & ->).
           simpl in Hid.
           assert (n2 = n1) as ->.
           { apply (same_id T PK); auto;
               [now apply (chain_inv T) in Hc2
               |now apply (chain_inv T) in Hc1]. }
           pose proof (chain_functional T PK _ _ _ Hc1 Hc2). subst c2. lia.
Qed.

(** What the query returns: the ids of the nodes whose composed path
    is the joined key, each once. *)
Lemma query_spec (prefixes : list string) :
  exists ids,
    Utis.get_prefix_ids_by_composed_key_query prefixes T = Ok ids
    /\ NoDup ids
    /\ forall i, In i ids <->
         exists n, In n T /\ Prefix.id n = i
                   /\ composed_path T n (Py.join "." prefixes).
Proof.
  unfold Utis.get_prefix_ids_by_composed_key_query, Utis.composed_prefix_cte.
  destruct (union_all_levels (List.length T) 0) as (rows & Hrows & Hin & ND);
    [lia|].
  simpl in Hrows. rewrite Hrows. simpl.
  eexists. split; [reflexivity|].
  set (P := fun r => (Utis.c_composed_prefix r =? Py.join "." prefixes)%string).
  pose proof (order_by_perm (filter P rows)) as Perm.
  split.
  - apply (Permutation_NoDup
             (Permutation_sym (Permutation_map Utis.c_id Perm))).
    now apply nodup_map_filter.
  - intros i. rewrite in_map_iff. split.
    + intros (r & <- & Hr).
      apply (Permutation_in _ Perm) in Hr. apply filter_In in Hr.
      destruct Hr as [Hr HP]. apply Hin in Hr.
      destruct Hr as (j & _ & Hr).
      destruct (level_sound T j r Hr) as (n & c & Hc & _ & ->).
      exists n. split; [now apply (chain_inv T) in Hc|].
      split; [reflexivity|]. exists c. split; [exact Hc|].
      unfold P in HP. simpl in HP. apply String.eqb_eq in HP. now symmetry.
    + intros (n & Hn & <- & c & Hc & Hj).
      exists (row_of n (Py.join "." c)). split; [reflexivity|].
      apply (Permutation_in _ (Permutation_sym Perm)).
      apply filter_In. split.
      * apply Hin. exists (List.length c - 1)%nat.
        split; [lia|]. now apply level_complete.
      * unfold P. simpl. rewrite Hj. apply String.eqb_refl.
Qed.

(** ** Nodes with the same composed path *)

Hypothesis UPS : unique_parent_segment T.

Lemma chain_same n m c : chain T n c -> chain T m c -> n = m.
Proof.
  intros H. revert m.
  induction H as [n Hn Hroot|n n' c Hn Hn' Hp Hc IH]; intros m H'.
  - remember [Prefix.prefix n] as c0 eqn:E0.
    destruct H' as [m Hm Hmroot|m m' c' Hm Hm' Hmp Hc'].
    + apply UPS; congruence.
    + destruct (chain_inv T _ _ Hc') as (_ & Hne & _).
      destruct c' as [|x [|y c']]; simpl in *; congruence.
  - remember (c ++ [Prefix.prefix n]) as c0 eqn:E0.
    destruct H' as [m Hm Hmroot|m m' c' Hm Hm' Hmp Hc'].
    + destruct (chain_inv T _ _ Hc) as (_ & Hne & _).
      destruct c as [|x [|y c]]; simpl in *; congruence.
    + apply app_inj_tail in E0. destruct E0 as [-> Ep].
      assert (n' = m') as -> by (apply IH; exact Hc').
      apply UPS; congruence.
Qed.

Hypothesis DF : dot_free_segments T.

Lemma chain_dot_free n c :
  chain T n c -> Forall (fun s => dot_free s = true) c.
Proof.
  unfold dot_free_segments in DF. rewrite Forall_forall in DF.
  induction 1 as [n Hn _|n m c Hn _ _ _ IH].
  - constructor; [now apply DF|constructor].
  - apply Forall_app. split; [exact IH|].
    constructor; [now apply DF|constructor].
Qed.

Lemma composed_path_unique n m s :
  composed_path T n s -> composed_path T m s -> n = m.
Proof.
  intros (c1 & H1 & E1) (c2 & H2 & E2).
  assert (c1 = c2) as ->.
  { apply join_inj.
    - now apply (chain_inv T) in H1.
    - now apply (chain_inv T) in H2.
    - now apply chain_dot_free with n.
    - now apply chain_dot_free with m.
    - congruence. }
  now apply chain_same with c2.
Qed.

End Query.

Example resolve_example_tree :
  Utis.get_prefix_ids_by_composed_key_query ["A"]%string Spec.example_tree
  = Ok [1]
  /\ Utis.get_prefix_ids_by_composed_key_query ["A"; "LOGIN"]%string
       Spec.example_tree = Ok [2]
  /\ Utis.get_prefix_ids_by_composed_key_query ["A"; "LOGIN"; "OAUTH"]%string
       Spec.example_tree = Ok [3]
  /\ Utis.get_prefix_ids_by_composed_key_query ["A"; "MISSING"]%string
       Spec.example_tree = Ok [].
Proof. repeat split; reflexivity. Qed.

(** The data model asks for segments without dots, and the resolver
    needs it: a root ["A.B"] and the child ["B"] of a root ["A"] have
    the same composed path, and the query returns both. *)
Example resolve_dotted_segment :
  Utis.get_prefix_ids_by_composed_key_query ["A"; "B"]%string
    [Prefix.Build 1 "A.B" "x" None None; Prefix.Build 2 "A" "y" None None;
     Prefix.Build 3 "B" "z" None (Some 2)]
  = Ok [1; 3].
Proof. reflexivity. Qed.

(** C1: in a table of [Prefix] rows with primary key [id], where no two
    rows share parent and segment and segments hold no dot, the closure
    query reaches its fixed point and, for the key [segments], returns
    exactly the id of the node whose composed dotted path is the
    segments joined by ["."]. *)
Theorem resolve_returns_the_node
        (T : list Prefix.t) (segments : list string) (n : Prefix.t) :
  Spec.primary_key T ->
  Spec.unique_parent_segment T ->
  Spec.dot_free_segments T ->
  Spec.composed_path T n (Py.join "." segments) ->
  Utis.get_prefix_ids_by_composed_key_query segments T = Ok [Prefix.id n].
Proof.
  intros PK UPS DF Hpath.
  assert (In n T) as Hn.
  { destruct Hpath as (ch & Hc & _). now apply (chain_inv T) in Hc. }
  destruct (query_spec T PK segments) as (ids & -> & ND & Hin).
  f_equal. apply nodup_singleton; [exact ND| |].
  - apply Hin. exists n. auto.
  - intros i Hi. apply Hin in Hi. destruct Hi as (m & Hm & <- & Hp).
    f_equal. now apply (composed_path_unique T UPS DF) with (Py.join "." segments).
Qed.

Lemma example_tree_unique : Spec.unique_parent_segment Spec.example_tree.
Proof.
  intros n m Hn Hm. simpl in Hn, Hm.
  destruct Hn as [<-|[<-|[<-|[]]]], Hm as [<-|[<-|[<-|[]]]];
    simpl; intros; try reflexivity; discriminate.
Defined.

Lemma example_tree_primary_key : Spec.primary_key Spec.example_tree.
Proof.
  unfold Spec.primary_key. simpl.
  repeat constructor; simpl; intros H;
    repeat (destruct H as [H|H]; [discriminate H|]); exact H.
Defined.

Lemma resolve_returns_the_node_witness :
  Utis.get_prefix_ids_by_composed_key_query ["A"; "LOGIN"]%string
    Spec.example_tree = Ok [2].
Proof.
  apply (resolve_returns_the_node Spec.example_tree ["A"; "LOGIN"]%string
           Spec.node_LOGIN).
  - exact example_tree_primary_key.
  - exact example_tree_unique.
  - repeat constructor.
  - exists ["A"; "LOGIN"]%string. split; [|reflexivity].
    apply (Spec.chain_child Spec.example_tree Spec.node_LOGIN Spec.node_A
             ["A"%string]); simpl; auto.
    apply (Spec.chain_root Spec.example_tree Spec.node_A); simpl; auto.
Defined.

(* ===================================================================== *)
(** * The lookup service *)
(* ===================================================================== *)

Section Lookup.

Import Spec Routes.

(** The steps of [get_error_code_details] once the code is parsed and
    the query has run. *)
Lemma lookup_steps code db prefixes increment ids :
  Utis.parse_error_code (Py.upper code) = Ok (prefixes, increment) ->
  Utis.get_prefix_ids_by_composed_key_query prefixes (prefix_table db)
  = Ok ids ->
  get_error_code_details code db =
    match ids with
    | [] => Raise TypeError
    | prefix_id :: _ =>
        if prefix_id =? 0 then Raise (prefix_not_found prefixes)
        else
          event_code <-
            except_NoResultFound
              (one (event_code_query prefix_id increment
                                     (event_code_table db)))
              (event_code_not_found code) ;;
          EventCodeR_new code
            (if EventCode.use_generic_message event_code
             then Some generic_message
             else EventCode.custom_message event_code)
            (EventCode.hint event_code)
            (EventCode.severity event_code)
    end.
Proof.
  intros Hp Hq. unfold get_error_code_details.
  rewrite Hp. simpl. rewrite Hq. simpl.
  destruct ids; reflexivity.
Qed.

(** No node with the composed path: the statement [fetchone()[0]]
    raises before the test on [prefix_id] is reached. *)
Lemma lookup_no_node code db prefixes increment :
  primary_key (prefix_table db) ->
  Utis.parse_error_code (Py.upper code) = Ok (prefixes, increment) ->
  (forall n, In n (prefix_table db) ->
             ~ composed_path (prefix_table db) n (Py.join "." prefixes)) ->
  get_error_code_details code db = Raise TypeError.
Proof.
  intros PK Hp Hnone.
  destruct (query_spec (prefix_table db) PK prefixes)
    as (ids & Hq & _ & Hin).
  rewrite (lookup_steps code db prefixes increment ids Hp Hq).
  destruct ids as [|i ids]; [reflexivity|].
  exfalso. destruct (proj1 (Hin i) (or_introl eq_refl)) as (n & Hn & _ & Hc).
  exact (Hnone n Hn Hc).
Qed.

Lemma upper_char_idem a : Py.upper_char (Py.upper_char a) = Py.upper_char a.
Proof. destruct a as [[] [] [] [] [] [] [] []]; reflexivity. Qed.

Lemma case_eq_char_upper a b :
  case_eq_char a b = true -> Py.upper_char a = Py.upper_char b.
Proof.
  unfold case_eq_char. intros H.
  apply orb_prop in H. destruct H as [H|H];
    [apply orb_prop in H; destruct H as [H|H]|].
  - apply Ascii.eqb_eq in H. now subst.
  - apply andb_prop in H. destruct H as [_ H].
    apply Ascii.eqb_eq in H. subst b. now rewrite upper_char_idem.
  - apply andb_prop in H. destruct H as [_ H].
    apply Ascii.eqb_eq in H. subst a. now rewrite upper_char_idem.
Qed.

Lemma case_eq_upper s1 s2 : case_eq s1 s2 = true -> Py.upper s1 = Py.upper s2.
Proof.
  revert s2. induction s1 as [|a s1 IH]; intros [|b s2]; simpl;
    try discriminate; [reflexivity|].
  intros H. apply andb_prop in H. destruct H as [Hc Hs].
  now rewrite (case_eq_char_upper _ _ Hc), (IH _ Hs).
Qed.

(** The outcome depends on the input through its upper-case form
    only, the echoed code apart. *)
Lemma lookup_upper db c1 c2 :
  Py.upper c1 = Py.upper c2 ->
  same_outcome c1 c2 (get_error_code_details c1 db)
               (get_error_code_details c2 db).
Proof.
  intros E. unfold get_error_code_details. rewrite <- E.
  destruct (Utis.parse_error_code (Py.upper c1)) as [[prefixes increment]|e];
    simpl; [|now left].
  destruct (Utis.get_prefix_ids_by_composed_key_query prefixes
              (prefix_table db)) as [ids|e]; simpl; [|now left].
  destruct (fetchone ids) as [pid|]; simpl; [|now left].
  destruct (pid =? 0); simpl; [now left|].
  destruct (event_code_query pid increment (event_code_table db))
    as [|ec [|ec' l]]; simpl; [now right| |now left].
  destruct (if EventCode.use_generic_message ec
            then Some generic_message else EventCode.custom_message ec);
    simpl; [repeat split|now left].
Qed.

(** The rows that the query on [event_codes] returns are the rows with
    the given [prefix_id] and [increment]. *)
Lemma event_code_query_In pid inc T e :
  In e (event_code_query pid inc T)
  <-> In e T /\ EventCode.prefix_id e = pid /\ EventCode.increment e = inc.
Proof.
  unfold event_code_query. rewrite filter_In, andb_true_iff, !Z.eqb_eq.
  reflexivity.
Qed.

Lemma event_code_query_nil pid inc T :
  event_code_query pid inc T = []
  <-> forall e, In e T -> ~ (EventCode.prefix_id e = pid
                             /\ EventCode.increment e = inc).
Proof.
  split.
  - intros H e He Hk.
    assert (In e (event_code_query pid inc T)) as Hin
        by (apply event_code_query_In; tauto).
    rewrite H in Hin. destruct Hin.
  - intros H. destruct (event_code_query pid inc T) as [|e l] eqn:E;
      [reflexivity|].
    assert (In e (event_code_query pid inc T)) as Hin
        by (rewrite E; now left).
    apply event_code_query_In in Hin. destruct Hin as (He & Hk).
    now destruct (H e He).
Qed.

Lemma event_code_query_one pid inc T before e after :
  T = before ++ e :: after ->
  EventCode.prefix_id e = pid -> EventCode.increment e = inc ->
  (forall e', In e' (before ++ after) ->
              ~ (EventCode.prefix_id e' = pid
                 /\ EventCode.increment e' = inc)) ->
  event_code_query pid inc T = [e].
Proof.
  intros -> Hp Hi Hother. unfold event_code_query.
  rewrite filter_app. simpl. rewrite Hp, Hi, !Z.eqb_refl. simpl.
  fold (event_code_query pid inc before).
  fold (event_code_query pid inc after).
  assert (event_code_query pid inc before = []) as ->.
  { apply event_code_query_nil. intros e' He'. apply Hother.
    apply in_or_app. now left. }
  assert (event_code_query pid inc after = []) as ->.
  { apply event_code_query_nil. intros e' He'. apply Hother.
    apply in_or_app. now right. }
  reflexivity.
Qed.

End Lookup.

(** C5: the code does not do what the claim says.  With the tree [A],
    [A.LOGIN], [A.LOGIN.OAUTH], the lookup of ["A.MISSING0001"] finds no
    row and raises the [TypeError] of [fetchone()[0]], not the 404
    ["Prefix ... is not found."] that the next statement would raise;
    and that 404 is raised when a row does match and its id is 0. *)
Theorem lookup_missing_prefix_raises_TypeError :
  Routes.get_error_code_details "A.MISSING0001"
    (Database Spec.example_tree []) = Raise TypeError
  /\ Routes.get_error_code_details "A.MISSING0001"
       (Database Spec.example_tree [])
     <> Raise (Routes.prefix_not_found ["A"; "MISSING"]%string)
  /\ Utis.get_prefix_ids_by_composed_key_query ["Z"]%string
       [Prefix.Build 0 "Z" "z" None None] = Ok [0]
  /\ Routes.get_error_code_details "Z0001"
       (Database [Prefix.Build 0 "Z" "z" None None]
                 [EventCode.Build "1b2c" 0 1 (Some "m"%string) None INFO None
                                  false false false])
     = Raise (Routes.prefix_not_found ["Z"%string]).
Proof. repeat split; try reflexivity. discriminate. Qed.



(** C9: the lookup parses and resolves [code.upper()].  For an ASCII
    input [c1] whose digits are within the limit of [int], and an input
    [c2] equal to it up to ASCII letter case: both have the same
    upper-case form, hence the same chain and increment; when the parse
    of the upper-case form fails, both lookups fail with that error;
    when it gives the chain [S] and the increment [N], and one row of
    [prefixes] has [S] joined by dots as composed path (its id not 0)
    and one row [e] of [event_codes] has that row's id and the
    increment [N], both lookups return the data of [e], each with the
    caller's own string as code, unchanged.  In every case the two
    outcomes are the same, the echoed code apart. *)
Theorem lookup_case_insensitive (db : database) (c1 c2 : string) :
  Props.is_ascii c1 = true ->
  Props.digits_within_limit (Py.upper c1) = true ->
  Spec.case_eq c1 c2 = true ->
  (* one upper-case form, one parse *)
  Py.upper c1 = Py.upper c2
  /\ Utis.parse_error_code (Py.upper c1) = Utis.parse_error_code (Py.upper c2)
  (* a failed parse of the upper-case form is the failure of the lookup *)
  /\ (forall x, Utis.parse_error_code (Py.upper c1) = Raise x ->
        Routes.get_error_code_details c1 db = Raise x
        /\ Routes.get_error_code_details c2 db = Raise x)
  (* the chain and increment of the upper-case form are resolved and
     fetched *)
  /\ (forall S N n before e after,
        Utis.parse_error_code (Py.upper c1) = Ok (S, N) ->
        Spec.primary_key (prefix_table db) ->
        In n (prefix_table db) ->
        Spec.composed_path (prefix_table db) n (Py.join "." S) ->
        (forall n', In n' (prefix_table db) ->
                    Spec.composed_path (prefix_table db) n' (Py.join "." S) ->
                    n' = n) ->
        Prefix.id n <> 0 ->
        event_code_table db = before ++ e :: after ->
        EventCode.prefix_id e = Prefix.id n ->
        EventCode.increment e = N ->
        (forall e', In e' (before ++ after) ->
                    ~ (EventCode.prefix_id e' = Prefix.id n
                       /\ EventCode.increment e' = N)) ->
        Routes.get_error_code_details c1 db
        = Routes.EventCodeR_new c1 (Props.message_of e)
            (EventCode.hint e) (EventCode.severity e)
        /\ Routes.get_error_code_details c2 db
           = Routes.EventCodeR_new c2 (Props.message_of e)
               (EventCode.hint e) (EventCode.severity e))
  (* the same outcome, and the caller's string echoed *)
  /\ Spec.same_outcome c1 c2 (Routes.get_error_code_details c1 db)
                       (Routes.get_error_code_details c2 db)
  /\ (forall r, Routes.get_error_code_details c1 db = Ok r ->
                Routes.code r = c1)
  /\ (forall r, Routes.get_error_code_details c2 db = Ok r ->
                Routes.code r = c2).
Proof.
  intros _ _ H. apply case_eq_upper in H.
  split; [exact H|]. split; [now rewrite H|].
  split; [|split; [|split; [now apply lookup_upper|split]]].
  - intros x Hx. unfold Routes.get_error_code_details.
    rewrite <- H, Hx. split; reflexivity.
  - intros S N n before e after Hp PK Hn Hc Huniq Hz Hdb Hpid Hinc Hother.
    destruct (query_spec (prefix_table db) PK S) as (ids & Hq & _ & Hin).
    assert (In (Prefix.id n) ids) as Hid by (apply Hin; eauto).
    destruct ids as [|pid rest]; [destruct Hid|].
    assert (pid = Prefix.id n) as ->.
    { destruct (proj1 (Hin pid) (or_introl (@eq_refl _ pid)))
        as (n' & Hn' & <- & Hc').
      now rewrite (Huniq n' Hn' Hc'). }
    assert (forall c, Py.upper c = Py.upper c1 ->
              Routes.get_error_code_details c db
              = Routes.EventCodeR_new c (Props.message_of e)
                  (EventCode.hint e) (EventCode.severity e)) as Hc0.
    { intros c Hu.
      rewrite (lookup_steps c db S N (Prefix.id n :: rest));
        [|now rewrite Hu|exact Hq].
      apply Z.eqb_neq in Hz. rewrite Hz.
      rewrite (event_code_query_one _ _ _ _ _ _ Hdb Hpid Hinc Hother).
      reflexivity. }
    split; apply Hc0; [reflexivity|now symmetry].
  - intros r Hr. pose proof (lookup_upper db c1 c1 (@eq_refl _ _)) as Q.
    rewrite Hr in Q. simpl in Q. tauto.
  - intros r Hr. pose proof (lookup_upper db c2 c2 (@eq_refl _ _)) as Q.
    rewrite Hr in Q. simpl in Q. tauto.
Qed.

Lemma lookup_case_insensitive_witness :
  Routes.get_error_code_details "auth0004"
    (Spec.example_db false (Some "Invalid credentials"%string))
  = Ok (Routes.Build_EventCodeR "auth0004" "Invalid credentials" None ERROR)
  /\ Routes.get_error_code_details "AUTH0004"
       (Spec.example_db false (Some "Invalid credentials"%string))
     = Ok (Routes.Build_EventCodeR "AUTH0004" "Invalid credentials" None
                                   ERROR).
Proof.
  refine (proj1 (proj2 (proj2 (proj2
            (lookup_case_insensitive
               (Spec.example_db false (Some "Invalid credentials"%string))
               "auth0004" "AUTH0004" _ _ _))))
            ["AUTH"%string] 4 Spec.node_AUTH []
            (Spec.invalid_credentials false
               (Some "Invalid credentials"%string)) []
            _ _ _ _ _ _ _ _ _ _); try reflexivity.
  - unfold Spec.primary_key. simpl. repeat constructor. intros [].
  - now left.
  - exists ["AUTH"%string]. split; [|reflexivity].
    apply (Spec.chain_root [Spec.node_AUTH] Spec.node_AUTH);
      [now left|reflexivity].
  - intros n' [<-|[]] _. reflexivity.
  - discriminate.
  - intros e' [].
Defined.

(** C10: when the lookup has resolved a prefix and matched one event
    code, a null [custom_message] without [use_generic_message] makes
    the construction of the result fail with pydantic's
    [ValidationError], which is none of the three lookup errors; the
    lookup succeeds exactly when [use_generic_message] is set or
    [custom_message] is not null. *)
Theorem lookup_null_message
        (db : database) (code : string) (prefixes : list string)
        (increment prefix_id : Z) (rest : list Z) (e : EventCode.t) :
  Utis.parse_error_code (Py.upper code) = Ok (prefixes, increment) ->
  Utis.get_prefix_ids_by_composed_key_query prefixes (prefix_table db)
  = Ok (prefix_id :: rest) ->
  prefix_id <> 0 ->
  Routes.event_code_query prefix_id increment (event_code_table db) = [e] ->
  (EventCode.use_generic_message e = false ->
   EventCode.custom_message e = None ->
   Routes.get_error_code_details code db = Raise ValidationError)
  /\ ((exists r, Routes.get_error_code_details code db = Ok r)
      <-> (EventCode.use_generic_message e = true
           \/ EventCode.custom_message e <> None))
  /\ ValidationError <> AttributeError
  /\ ValidationError <> Routes.prefix_not_found prefixes
  /\ ValidationError <> Routes.event_code_not_found code.
Proof.
  intros Hp Hq Hz He.
  rewrite (lookup_steps code db prefixes increment _ Hp Hq).
  apply Z.eqb_neq in Hz. rewrite Hz, He. simpl.
  repeat split; try discriminate.
  - now intros -> ->.
  - intros [r Hr].
    destruct (EventCode.use_generic_message e); [now left|right].
    destruct (EventCode.custom_message e); discriminate.
  - intros [G|M].
    + rewrite G. simpl. eauto.
    + destruct (EventCode.use_generic_message e); simpl; [eauto|].
      destruct (EventCode.custom_message e); simpl; [eauto|congruence].
Qed.

Lemma lookup_null_message_witness :
  Routes.get_error_code_details "AUTH0004" (Spec.example_db false None)
  = Raise ValidationError.
Proof.
  refine (proj1 (lookup_null_message (Spec.example_db false None) "AUTH0004"
                   ["AUTH"%string] 4 1 [] (Spec.invalid_credentials false None)
                   _ _ _ _) _ _); try reflexivity.
  discriminate.
Defined.

(* ===================================================================== *)
(** * [str_value] and the composed path *)
(* ===================================================================== *)

Section StrValue.

Import Spec.

Variable T : list Prefix.t.
Hypothesis PK : primary_key T.
Hypothesis NZ : forall p, In p T -> Prefix.parent_prefix_id p <> Some 0.

Lemma get_prefix_In m : In m T -> Models.get_prefix T (Prefix.id m) = Some m.
Proof.
  intros Hm. unfold Models.get_prefix.
  destruct (find _ T) as [r|] eqn:E.
  - apply find_some in E. destruct E as [Hr Hid].
    apply Z.eqb_eq in Hid. f_equal. now apply (same_id T PK).
  - apply (find_none _ _ E) in Hm. now rewrite Z.eqb_refl in Hm.
Qed.

(** [Prefix.str_value] is the composed path. *)
Lemma Prefix_str_value_chain n ch fuel :
  chain T n ch -> (List.length ch <= fuel)%nat ->
  Models.Prefix_str_value fuel T n = Ok (Py.join "." ch).
Proof.
  intros H. revert fuel.
  induction H as [n Hn Hroot|n m ch Hn Hm Hp Hc IH]; intros fuel Hf.
  - destruct fuel; [simpl in Hf; lia|]. simpl. now rewrite Hroot.
  - rewrite length_app in Hf. simpl in Hf.
    destruct fuel as [|fuel]; [lia|]. simpl.
    pose proof (NZ n Hn) as Hz. rewrite Hp in *.
    assert (Prefix.id m <> 0) as Hz' by congruence.
    apply Z.eqb_neq in Hz'. simpl. rewrite Hz'.
    rewrite (get_prefix_In m Hm), IH by lia. simpl.
    rewrite join_snoc; [reflexivity|]. now apply (chain_inv T) in Hc.
Qed.

End StrValue.

(** [EventCode.str_value] of an event code whose prefix has the chain
    [ch] is [format ch increment]. *)
Lemma EventCode_str_value_format db e n ch :
  Spec.primary_key (prefix_table db) ->
  (forall p, In p (prefix_table db) -> Prefix.parent_prefix_id p <> Some 0) ->
  EventCode.prefix_id e = Prefix.id n ->
  Spec.chain (prefix_table db) n ch ->
  Models.EventCode_str_value db e
  = Ok (Spec.format ch (EventCode.increment e)).
Proof.
  intros PK NZ He Hc. unfold Models.EventCode_str_value.
  rewrite He, (get_prefix_In _ PK n) by now apply (chain_inv _ _ _ Hc).
  rewrite (Prefix_str_value_chain _ PK NZ n ch); [reflexivity|exact Hc|].
  apply (chain_length _ PK) in Hc. lia.
Qed.

(* ===================================================================== *)
(** * Further properties of the code grammar *)
(* ===================================================================== *)

Section GrammarMore.

Import Spec.

Lemma span_append cls s :
  s = (fst (span cls s) ++ snd (span cls s))%string.
Proof.
  induction s as [|c s IH]; simpl; [reflexivity|].
  destruct (cls c); [|reflexivity].
  destruct (span cls s) as [m r]. simpl in *. now rewrite <- IH.
Qed.

Lemma span_rest cls s :
  match snd (span cls s) with
  | EmptyString => True
  | String c _ => cls c = false
  end.
Proof.
  induction s as [|c s IH]; simpl; [exact I|].
  destruct (cls c) eqn:E; [|exact E].
  destruct (span cls s) as [m r]. exact IH.
Qed.

Lemma split_dot_not_nil p : Py.split_dot p <> [].
Proof.
  destruct p as [|c p]; simpl; [discriminate|].
  destruct (Py.is_dot c); [discriminate|].
  destruct (Py.split_dot p); discriminate.
Qed.

Lemma join_cons_char c f fs :
  Py.join "." (String c f :: fs) = String c (Py.join "." (f :: fs)).
Proof. destruct fs; reflexivity. Qed.

(** [".".join(p.split("."))] is [p]. *)
Lemma join_split_dot p : Py.join "." (Py.split_dot p) = p.
Proof.
  induction p as [|c p IH]; [reflexivity|]. simpl.
  destruct (Py.is_dot c) eqn:D.
  - unfold Py.is_dot in D. apply Ascii.eqb_eq in D. subst c.
    pose proof (split_dot_not_nil p) as Hne.
    destruct (Py.split_dot p) as [|f fs]; [congruence|].
    change (Py.join "." (""%string :: f :: fs))
      with (String "." (Py.join "." (f :: fs))).
    now rewrite IH.
  - pose proof (split_dot_not_nil p) as Hne.
    destruct (Py.split_dot p) as [|f fs]; [congruence|].
    now rewrite join_cons_char, IH.
Qed.

Lemma digit_val_range c : Re.digit c = true -> 0 <= Py.digit_val c <= 9.
Proof.
  unfold Re.digit, Py.is_digit, Py.in_range, Py.digit_val.
  intros H. cbv zeta in H. apply andb_prop in H. destruct H as [H1 H2].
  apply N.leb_le in H1. apply N.leb_le in H2. lia.
Qed.

Lemma int_acc_nonneg d acc :
  all_chars Re.digit d = true -> 0 <= acc -> 0 <= Py.int_acc acc d.
Proof.
  revert acc.
  induction d as [|c d IH]; cbn [Py.int_acc all_chars]; intros acc H Hacc;
    [exact Hacc|].
  apply andb_prop in H. destruct H as [Hc Hd].
  apply IH; [exact Hd|]. pose proof (digit_val_range c Hc). lia.
Qed.

(** The parts of a parsed code. *)
Lemma parse_error_code_parts code S N :
  Utis.parse_error_code code = Ok (S, N) ->
  exists p d rest,
    code = (p ++ d ++ rest)%string
    /\ S = Py.split_dot p /\ N = Py.int d
    /\ nonempty p = true /\ all_chars Re.alpha_dot p = true
    /\ nonempty d = true /\ all_chars Re.digit d = true
    /\ match rest with
       | EmptyString => True
       | String c _ => Re.digit c = false
       end.
Proof.
  rewrite parse_error_code_scan. unfold leading_code.
  pose proof (span_append Re.alpha_dot code) as Hc.
  pose proof (span_fst_all Re.alpha_dot code) as Hp.
  destruct (span Re.alpha_dot code) as [p r]. simpl in Hc, Hp.
  pose proof (span_append Re.digit r) as Hr.
  pose proof (span_fst_all Re.digit r) as Hd.
  pose proof (span_rest Re.digit r) as Hrest.
  destruct (span Re.digit r) as [d rest]. simpl in Hr, Hd, Hrest.
  destruct (nonempty p) eqn:Np; [|discriminate].
  destruct (nonempty d) eqn:Nd; [|discriminate].
  simpl. intros [= <- <-]. exists p, d, rest.
  rewrite Hc, Hr at 1. auto 10.
Qed.

End GrammarMore.

(** X1: [cumulate_prefixes] returns one string per segment, and the
    [k]-th string is the chain from its [k]-th segment on, joined by
    dots. *)
Theorem cumulate_prefixes_spec (prefixes : list string) :
  List.length (Utis.cumulate_prefixes prefixes) = List.length prefixes
  /\ forall k, (k < List.length prefixes)%nat ->
       nth k (Utis.cumulate_prefixes prefixes) EmptyString
       = Py.join "." (skipn k prefixes).
Proof.
  induction prefixes as [|x l [IHl IHn]]; [split; [reflexivity|simpl; lia]|].
  split; [simpl; now rewrite IHl|].
  intros [|k] Hk; [reflexivity|]. simpl in Hk.
  change (nth (S k) (Utis.cumulate_prefixes (x :: l)) EmptyString)
    with (nth k (Utis.cumulate_prefixes l) EmptyString).
  rewrite IHn by lia. reflexivity.
Qed.

(** X2: a parsed code never has an empty chain, a segment with a
    character that is not a letter, or a negative increment. *)
Theorem parse_error_code_shape (code : string) (S : list string) (N : Z) :
  Utis.parse_error_code code = Ok (S, N) ->
  S <> [] /\ Forall (fun s => Spec.all_chars Py.is_alpha s = true) S /\ 0 <= N.
Proof.
  intros H. pose proof (parse_error_code_letters code S N H) as HL.
  destruct (parse_error_code_parts code S N H)
    as (p & d & rest & _ & -> & -> & _ & _ & _ & Hd & _).
  split; [apply split_dot_not_nil|]. split; [exact HL|].
  now apply int_acc_nonneg.
Qed.

Lemma parse_error_code_shape_witness :
  ["AUTH"; "LOGIN"]%string <> []
  /\ Forall (fun s => Spec.all_chars Py.is_alpha s = true)
            ["AUTH"; "LOGIN"]%string
  /\ 0 <= 4.
Proof.
  apply (parse_error_code_shape "AUTH.LOGIN0004"). reflexivity.
Defined.

(** X3: a parsed code starts with its chain joined by dots, followed
    by a non-empty run of digits whose value is the increment; what
    follows the digits does not begin with a digit and is ignored. *)
Theorem parse_error_code_reads_prefix
        (code : string) (S : list string) (N : Z) :
  Utis.parse_error_code code = Ok (S, N) ->
  exists d rest,
    code = (Py.join "." S ++ d ++ rest)%string
    /\ Spec.nonempty (Py.join "." S) = true
    /\ Spec.nonempty d = true /\ Spec.all_chars Re.digit d = true
    /\ Py.int d = N
    /\ match rest with
       | EmptyString => True
       | String c _ => Re.digit c = false
       end.
Proof.
  intros H.
  destruct (parse_error_code_parts code S N H)
    as (p & d & rest & Hc & -> & -> & Np & _ & Nd & Hd & Hrest).
  exists d, rest. rewrite join_split_dot. auto 10.
Qed.

Lemma parse_error_code_reads_prefix_witness :
  exists d rest,
    "AUTH.LOGIN0004-old"%string
    = (Py.join "." ["AUTH"; "LOGIN"]%string ++ d ++ rest)%string
    /\ Spec.nonempty (Py.join "." ["AUTH"; "LOGIN"]%string) = true
    /\ Spec.nonempty d = true /\ Spec.all_chars Re.digit d = true
    /\ Py.int d = 4
    /\ match rest with
       | EmptyString => True
       | String c _ => Re.digit c = false
       end.
Proof.
  apply (parse_error_code_reads_prefix "AUTH.LOGIN0004-old"). reflexivity.
Defined.

(* ===================================================================== *)
(** * The rendering of the increment *)
(* ===================================================================== *)

Section Rendering.

Import Spec.

Lemma length_append s1 s2 :
  String.length (s1 ++ s2) = (String.length s1 + String.length s2)%nat.
Proof. induction s1 as [|c s1 IH]; simpl; congruence. Qed.

Lemma length_replicate k c : String.length (Py.replicate k c) = k.
Proof. induction k as [|k IH]; simpl; congruence. Qed.

Lemma length_rjust w c s :
  String.length (Py.rjust w c s) = Nat.max w (String.length s).
Proof.
  unfold Py.rjust. rewrite length_append, length_replicate. lia.
Qed.

Lemma to_digits_length_le k f n :
  0 <= n < 10 ^ Z.of_nat (S k) ->
  (String.length (Py.to_digits f n) <= S k)%nat.
Proof.
  revert f n. induction k as [|k IH]; intros [|f] n Hn;
    try (simpl; lia); cbn [Py.to_digits].
  - assert ((n <? 10) = true) as ->; [|simpl; lia].
    apply Z.ltb_lt. change (10 ^ Z.of_nat 1) with 10 in Hn. lia.
  - destruct (n <? 10) eqn:L; [simpl; lia|]. apply Z.ltb_ge in L.
    rewrite length_append. simpl.
    assert (0 <= n / 10 < 10 ^ Z.of_nat (S k)) as Hq.
    { split; [apply Z.div_pos; lia|].
      apply Z.div_lt_upper_bound; [lia|].
      rewrite (Nat2Z.inj_succ (S k)), Z.pow_succ_r in Hn by lia. lia. }
    specialize (IH f _ Hq). lia.
Qed.

Lemma to_digits_length_ge k f n :
  10 ^ Z.of_nat k <= n < 2 ^ Z.of_nat f ->
  (S k <= String.length (Py.to_digits f n))%nat.
Proof.
  revert f n. induction k as [|k IH]; intros f n Hn.
  - destruct f as [|f]; [simpl in Hn; lia|]. cbn [Py.to_digits].
    destruct (n <? 10); [simpl; lia|].
    rewrite length_append. simpl. lia.
  - assert (10 <= 10 ^ Z.of_nat (S k)) as H10.
    { rewrite Nat2Z.inj_succ, Z.pow_succ_r by lia.
      assert (0 < 10 ^ Z.of_nat k) by (apply Z.pow_pos_nonneg; lia). lia. }
    destruct f as [|f]; [simpl in Hn; lia|]. cbn [Py.to_digits].
    assert ((n <? 10) = false) as -> by (apply Z.ltb_ge; lia).
    rewrite length_append. simpl.
    assert (10 ^ Z.of_nat k <= n / 10 < 2 ^ Z.of_nat f) as Hq.
    { rewrite (Nat2Z.inj_succ k), Z.pow_succ_r in Hn by lia.
      rewrite (Nat2Z.inj_succ f), Z.pow_succ_r in Hn by lia.
      split.
      - apply Z.div_le_lower_bound; lia.
      - apply Z.div_lt_upper_bound; lia. }
    specialize (IH f _ Hq). lia.
Qed.

End Rendering.

(** X4: the suffix [f"{increment:0>4}"] that [EventCode.str_value]
    appends for an increment [n >= 0] is a run of decimal digits that
    [int] reads back as [n]; it has four characters up to 9999 and is
    the plain decimal numeral from 1000 on. *)
Theorem format_0r4_digits (n : Z) :
  0 <= n ->
  Spec.all_chars Re.digit (Py.format_0r4 n) = true
  /\ Py.int (Py.format_0r4 n) = n
  /\ (n <= 9999 -> String.length (Py.format_0r4 n) = 4%nat)
  /\ (1000 <= n -> Py.format_0r4 n = Py.str n).
Proof.
  intros H. destruct (format_0r4_spec n H) as (Hi & Ha & _).
  split; [exact Ha|]. split; [exact Hi|].
  assert (Py.str n = Py.to_digits (Py.digits_fuel n) n) as Hs.
  { unfold Py.str. now assert ((n <? 0) = false) as -> by (apply Z.ltb_ge; lia). }
  split.
  - intros Hle. unfold Py.format_0r4. rewrite length_rjust, Hs.
    pose proof (to_digits_length_le 3 (Py.digits_fuel n) n) as L.
    change (10 ^ Z.of_nat 4) with 10000 in L. lia.
  - intros Hge. unfold Py.format_0r4, Py.rjust. rewrite Hs.
    pose proof (to_digits_length_ge 3 (Py.digits_fuel n) n) as L.
    change (10 ^ Z.of_nat 3) with 1000 in L.
    pose proof (digits_fuel_bound n H) as B.
    replace (4 - String.length (Py.to_digits (Py.digits_fuel n) n))%nat
      with 0%nat by lia.
    reflexivity.
Qed.

Lemma format_0r4_digits_witness :
  Spec.all_chars Re.digit (Py.format_0r4 4) = true
  /\ Py.int (Py.format_0r4 4) = 4
  /\ (4 <= 9999 -> String.length (Py.format_0r4 4) = 4%nat)
  /\ (1000 <= 4 -> Py.format_0r4 4 = Py.str 4).
Proof. apply (format_0r4_digits 4). lia. Defined.

(* ===================================================================== *)
(** * Further properties of the prefix tree *)
(* ===================================================================== *)

Section TreeMore.

Import Spec.

Lemma get_prefix_some T pid m :
  Models.get_prefix T pid = Some m -> In m T /\ Prefix.id m = pid.
Proof.
  unfold Models.get_prefix. intros H. apply find_some in H.
  destruct H as [Hm Hid]. apply Z.eqb_eq in Hid. auto.
Qed.

(** What [Prefix.str_value] returns is a composed path. *)
Lemma Prefix_str_value_sound T fuel :
  Props.no_zero_parent T ->
  forall n s, In n T -> Models.Prefix_str_value fuel T n = Ok s ->
              composed_path T n s.
Proof.
  intros NZ. induction fuel as [|fuel IH]; intros n s Hn; simpl;
    [discriminate|].
  destruct (Prefix.parent_prefix_id n) as [pid|] eqn:Ep; simpl.
  - destruct (Z.eqb_spec pid 0) as [->|_].
    { exfalso. now apply (NZ n Hn). }
    destruct (Models.get_prefix T pid) as [m|] eqn:Em; [|discriminate].
    apply get_prefix_some in Em. destruct Em as [Hm <-].
    destruct (Models.Prefix_str_value fuel T m) as [s'|e] eqn:Es;
      simpl; [|discriminate].
    intros [= <-]. destruct (IH m s' Hm Es) as (ch & Hc & ->).
    exists (ch ++ [Prefix.prefix n]). split.
    + now apply chain_child with m.
    + symmetry. apply join_snoc. now apply (chain_inv T) in Hc.
  - intros [= <-]. exists [Prefix.prefix n]. split; [|reflexivity].
    now apply chain_root.
Qed.

End TreeMore.

(** X5: in a table with primary key [id] and no parent id 0,
    [Prefix.str_value] of a row returns [s] (when it returns) exactly if
    [s] is the row's composed path, root first; a row whose chain of
    parents does not end at a root has no [str_value]. *)
Theorem Prefix_str_value_composed_path
        (T : list Prefix.t) (n : Prefix.t) (s : string) :
  Spec.primary_key T ->
  Props.no_zero_parent T ->
  In n T ->
  ((exists fuel, Models.Prefix_str_value fuel T n = Ok s)
   <-> Spec.composed_path T n s).
Proof.
  intros PK NZ Hn. split.
  - intros (fuel & H). now apply Prefix_str_value_sound with fuel.
  - intros (ch & Hc & ->). exists (List.length ch).
    now apply (Prefix_str_value_chain T PK NZ).
Qed.

Lemma example_tree_no_zero_parent : Props.no_zero_parent Spec.example_tree.
Proof.
  intros p Hp. simpl in Hp.
  destruct Hp as [<-|[<-|[<-|[]]]]; discriminate.
Defined.

Lemma Prefix_str_value_composed_path_witness :
  (exists fuel,
      Models.Prefix_str_value fuel Spec.example_tree Spec.node_OAUTH
      = Ok "A.LOGIN.OAUTH"%string)
  <-> Spec.composed_path Spec.example_tree Spec.node_OAUTH "A.LOGIN.OAUTH".
Proof.
  apply Prefix_str_value_composed_path.
  - exact example_tree_primary_key.
  - exact example_tree_no_zero_parent.
  - simpl. auto.
Defined.

(** X6: the path that [Prefix.str_value] shows resolves back to its
    row: in a table with primary key [id], unique (parent, segment),
    segments without dots and no parent id 0, the query for the key
    [str_value.split(".")] returns exactly the id of the row. *)
Theorem resolve_str_value
        (T : list Prefix.t) (n : Prefix.t) (s : string) (fuel : nat) :
  Spec.primary_key T ->
  Spec.unique_parent_segment T ->
  Spec.dot_free_segments T ->
  Props.no_zero_parent T ->
  In n T ->
  Models.Prefix_str_value fuel T n = Ok s ->
  Utis.get_prefix_ids_by_composed_key_query (Py.split_dot s) T
  = Ok [Prefix.id n].
Proof.
  intros PK UPS DF NZ Hn Hs.
  pose proof (Prefix_str_value_sound T fuel NZ n s Hn Hs) as Hp.
  destruct (query_spec T PK (Py.split_dot s)) as (ids & -> & ND & Hin).
  rewrite join_split_dot in Hin.
  f_equal. apply nodup_singleton; [exact ND| |].
  - apply Hin. exists n. auto.
  - intros i Hi. apply Hin in Hi. destruct Hi as (m & Hm & <- & Hpm).
    f_equal. now apply (composed_path_unique T UPS DF) with s.
Qed.

Lemma resolve_str_value_witness :
  Utis.get_prefix_ids_by_composed_key_query
    (Py.split_dot "A.LOGIN.OAUTH") Spec.example_tree = Ok [3].
Proof.
  apply (resolve_str_value Spec.example_tree Spec.node_OAUTH
           "A.LOGIN.OAUTH" 3).
  - exact example_tree_primary_key.
  - exact example_tree_unique.
  - repeat constructor.
  - exact example_tree_no_zero_parent.
  - simpl. auto.
  - reflexivity.
Defined.

(** X7: in a table with primary key [id] the closure query stops, for
    every key, and returns each id at most once: the ids of exactly the
    rows whose composed path is the joined key; a row under a missing
    parent or on a cycle is never returned. *)
Theorem query_returns_all_matches
        (T : list Prefix.t) (prefixes : list string) :
  Spec.primary_key T ->
  exists ids,
    Utis.get_prefix_ids_by_composed_key_query prefixes T = Ok ids
    /\ NoDup ids
    /\ forall i, In i ids <->
         exists n, In n T /\ Prefix.id n = i
                   /\ Spec.composed_path T n (Py.join "." prefixes).
Proof. intros PK. exact (query_spec T PK prefixes). Qed.

Lemma query_returns_all_matches_witness :
  exists ids,
    Utis.get_prefix_ids_by_composed_key_query ["A"; "MISSING"]%string
      Spec.example_tree = Ok ids
    /\ NoDup ids
    /\ forall i, In i ids <->
         exists n, In n Spec.example_tree /\ Prefix.id n = i
                   /\ Spec.composed_path Spec.example_tree n
                        (Py.join "." ["A"; "MISSING"]%string).
Proof.
  apply (query_returns_all_matches Spec.example_tree).
  exact example_tree_primary_key.
Defined.

(* ===================================================================== *)
(** * Further properties of the lookup *)
(* ===================================================================== *)

Section LookupMore.

Import Spec Routes.

Lemma upper_app s1 s2 : Py.upper (s1 ++ s2) = (Py.upper s1 ++ Py.upper s2)%string.
Proof. induction s1 as [|c s1 IH]; simpl; congruence. Qed.

Lemma upper_char_digit c : Re.digit (Py.upper_char c) = Re.digit c.
Proof. destruct c as [[] [] [] [] [] [] [] []]; reflexivity. Qed.

Lemma upper_char_alpha_dot c : Re.alpha_dot (Py.upper_char c) = Re.alpha_dot c.
Proof. destruct c as [[] [] [] [] [] [] [] []]; reflexivity. Qed.

Lemma upper_char_not_lower c : Py.is_lower (Py.upper_char c) = false.
Proof. destruct c as [[] [] [] [] [] [] [] []]; reflexivity. Qed.

Lemma upper_char_fixed c : Py.is_lower c = false -> Py.upper_char c = c.
Proof. unfold Py.upper_char. now intros ->. Qed.

Lemma alpha_dot_upper_or_dot c :
  Re.alpha_dot c = true -> Py.is_lower c = false ->
  Py.is_upper c || Py.is_dot c = true.
Proof.
  unfold Re.alpha_dot, Py.is_alpha. intros H L. now rewrite L in H.
Qed.

Lemma digit_not_lower c : Re.digit c = true -> Py.is_lower c = false.
Proof. destruct c as [[] [] [] [] [] [] [] []]; vm_compute; congruence. Qed.

Lemma upper_is_not_lower c : Py.is_upper c = true -> Py.is_lower c = false.
Proof. destruct c as [[] [] [] [] [] [] [] []]; vm_compute; congruence. Qed.

Lemma dot_not_lower c : Py.is_dot c = true -> Py.is_lower c = false.
Proof. destruct c as [[] [] [] [] [] [] [] []]; vm_compute; congruence. Qed.

Lemma upper_not_lower s :
  all_chars (fun c => negb (Py.is_lower c)) (Py.upper s) = true.
Proof.
  induction s as [|c s IH]; simpl; [reflexivity|].
  now rewrite upper_char_not_lower, IH.
Qed.

Lemma upper_fixed s :
  all_chars (fun c => negb (Py.is_lower c)) s = true -> Py.upper s = s.
Proof.
  induction s as [|c s IH]; simpl; [reflexivity|]. intros H.
  apply andb_prop in H. destruct H as [Hc Hs]. apply negb_true_iff in Hc.
  now rewrite (upper_char_fixed c Hc), (IH Hs).
Qed.

Lemma all_chars_upper cls s :
  (forall c, cls (Py.upper_char c) = cls c) ->
  all_chars cls (Py.upper s) = all_chars cls s.
Proof.
  intros H. induction s as [|c s IH]; simpl; [reflexivity|].
  now rewrite H, IH.
Qed.

Lemma nonempty_upper s : nonempty (Py.upper s) = nonempty s.
Proof. destruct s; reflexivity. Qed.

Lemma all_chars_both (f g h : ascii -> bool) s :
  (forall c, f c = true -> g c = true -> h c = true) ->
  all_chars f s = true -> all_chars g s = true -> all_chars h s = true.
Proof.
  intros H. induction s as [|c s IH]; simpl; [reflexivity|].
  intros Hf Hg. apply andb_prop in Hf, Hg.
  destruct Hf as [Hf Hfs], Hg as [Hg Hgs].
  now rewrite (H c Hf Hg), (IH Hfs Hgs).
Qed.

Lemma split_dot_class (cls : ascii -> bool) p :
  all_chars (fun c => cls c || Py.is_dot c) p = true ->
  Forall (fun s => all_chars cls s = true) (Py.split_dot p).
Proof.
  induction p as [|c p IH]; simpl; intros H.
  - repeat constructor.
  - apply andb_prop in H. destruct H as [Hc Hp]. specialize (IH Hp).
    destruct (Py.is_dot c) eqn:D.
    + constructor; [reflexivity|exact IH].
    + rewrite orb_false_r in Hc.
      destruct (Py.split_dot p) as [|field fields].
      * repeat constructor. simpl. now rewrite Hc.
      * inversion IH as [|? ? Hf Hfs]; subst.
        constructor; [|exact Hfs]. simpl. now rewrite Hc, Hf.
Qed.

(** A run of letters and dots, a run of digits and a rest that does not
    begin with a digit parse to the run split on dots and the value of
    the digits. *)
Lemma parse_of_parts p d rest :
  nonempty p = true -> all_chars Re.alpha_dot p = true ->
  nonempty d = true -> all_chars Re.digit d = true ->
  match rest with
  | EmptyString => True
  | String c _ => Re.digit c = false
  end ->
  Utis.parse_error_code (p ++ d ++ rest) = Ok (Py.split_dot p, Py.int d).
Proof.
  intros Np Hp Nd Hd Hrest.
  rewrite parse_error_code_scan. unfold leading_code.
  rewrite (span_all Re.alpha_dot p (d ++ rest) Hp).
  - rewrite (span_all Re.digit d rest Hd Hrest). now rewrite Np, Nd.
  - destruct d as [|c d]; [discriminate|]. simpl in *.
    apply andb_prop in Hd. destruct Hd as [Hc _].
    now apply digit_not_alpha_dot.
Qed.

(** The key of every lookup is in upper case. *)
Lemma parse_upper_segments code S N :
  Utis.parse_error_code (Py.upper code) = Ok (S, N) ->
  Forall (fun s => all_chars Py.is_upper s = true) S.
Proof.
  intros H.
  destruct (parse_error_code_parts _ S N H)
    as (p & d & rest & Hc & -> & _ & _ & Hp & _).
  apply split_dot_class.
  pose proof (upper_not_lower code) as U. rewrite Hc, all_chars_app in U.
  apply andb_prop in U. destruct U as [U _].
  revert Hp U. apply all_chars_both. intros c Ha Hl.
  apply alpha_dot_upper_or_dot; [exact Ha|now apply negb_true_iff].
Qed.

(** The outcome depends on the input through the parse of its
    upper-case form only, the echoed code apart. *)
Lemma lookup_same_parse db c1 c2 :
  Utis.parse_error_code (Py.upper c1) = Utis.parse_error_code (Py.upper c2) ->
  same_outcome c1 c2 (get_error_code_details c1 db)
               (get_error_code_details c2 db).
Proof.
  intros E. unfold get_error_code_details. rewrite <- E.
  destruct (Utis.parse_error_code (Py.upper c1)) as [[prefixes increment]|e];
    simpl; [|now left].
  destruct (Utis.get_prefix_ids_by_composed_key_query prefixes
              (prefix_table db)) as [ids|e]; simpl; [|now left].
  destruct (fetchone ids) as [pid|]; simpl; [|now left].
  destruct (pid =? 0); simpl; [now left|].
  destruct (event_code_query pid increment (event_code_table db))
    as [|ec [|ec' l]]; simpl; [now right| |now left].
  destruct (if EventCode.use_generic_message ec
            then Some generic_message else EventCode.custom_message ec);
    simpl; [repeat split|now left].
Qed.

End LookupMore.

(** X8: the lookup ignores what follows the digits: when [code] can be
    parsed, [code] and [code ++ rest] have the same outcome (the same
    details, hint and severity, or the same failure), the echoed code
    apart, for every [rest] that does not begin with a digit. *)
Theorem lookup_ignores_trailing_text
        (db : database) (code rest : string) (S : list string) (N : Z) :
  Utis.parse_error_code (Py.upper code) = Ok (S, N) ->
  match rest with
  | EmptyString => True
  | String c _ => Re.digit c = false
  end ->
  Spec.same_outcome code (code ++ rest)
    (Routes.get_error_code_details code db)
    (Routes.get_error_code_details (code ++ rest) db).
Proof.
  intros H Hrest. apply lookup_same_parse. rewrite H, upper_app.
  destruct (parse_error_code_parts _ S N H)
    as (p & d & rest0 & -> & -> & -> & Np & Hp & Nd & Hd & Hr0).
  rewrite !append_assoc. symmetry. apply parse_of_parts; auto.
  destruct rest0 as [|c0 r0]; [|exact Hr0]. simpl.
  destruct rest as [|c r]; [exact I|]. simpl.
  now rewrite upper_char_digit.
Qed.

Lemma lookup_ignores_trailing_text_witness :
  Spec.same_outcome "AUTH0004" ("AUTH0004" ++ "-old")
    (Routes.get_error_code_details "AUTH0004"
       (Spec.example_db false (Some "Invalid credentials"%string)))
    (Routes.get_error_code_details ("AUTH0004" ++ "-old")
       (Spec.example_db false (Some "Invalid credentials"%string))).
Proof.
  apply (lookup_ignores_trailing_text _ "AUTH0004" "-old" ["AUTH"%string] 4);
    reflexivity.
Defined.

(** X9: the lookup ignores zero padding: for a non-empty run [p] of
    letters and dots, a non-empty run [d] of digits and [k] zeros that
    together with [d] stay within the limit of [int], the codes
    [p ++ d] and [p ++ "0...0" ++ d] have the same outcome, the echoed
    code apart. *)
Theorem lookup_ignores_zero_padding
        (db : database) (p d : string) (k : nat) :
  Spec.nonempty p = true -> Spec.all_chars Re.alpha_dot p = true ->
  Spec.nonempty d = true -> Spec.all_chars Re.digit d = true ->
  (k + String.length d <= Props.int_max_str_digits)%nat ->
  Spec.same_outcome (p ++ d) (p ++ Py.replicate k "0" ++ d)
    (Routes.get_error_code_details (p ++ d) db)
    (Routes.get_error_code_details (p ++ Py.replicate k "0" ++ d) db).
Proof.
  intros Np Hp Nd Hd _. apply lookup_same_parse.
  assert (Spec.all_chars Re.digit (Py.replicate k "0" ++ d) = true) as Hz.
  { rewrite all_chars_app, Hd, andb_true_r.
    clear. induction k as [|k IH]; simpl; auto. }
  assert (forall x, Spec.all_chars Re.digit x = true -> Py.upper x = x) as Ud.
  { intros x Hx. apply upper_fixed. revert Hx. apply all_chars_weaken.
    intros c Hc. apply negb_true_iff. now apply digit_not_lower. }
  rewrite (upper_app p d), (upper_app p (Py.replicate k "0" ++ d)).
  rewrite (Ud _ Hd), (Ud _ Hz).
  rewrite <- (append_empty_r d) at 1.
  rewrite <- (append_empty_r (Py.replicate k "0" ++ d)).
  assert (Spec.nonempty (Py.upper p) = true) as Np'
      by now rewrite nonempty_upper.
  assert (Spec.all_chars Re.alpha_dot (Py.upper p) = true) as Hp'
      by now rewrite (all_chars_upper _ _ upper_char_alpha_dot).
  rewrite !parse_of_parts; auto.
  - now rewrite int_replicate_zero.
  - destruct k; [exact Nd|reflexivity].
Qed.

Lemma lookup_ignores_zero_padding_witness :
  Spec.same_outcome ("AUTH" ++ "4") ("AUTH" ++ Py.replicate 3 "0" ++ "4")
    (Routes.get_error_code_details ("AUTH" ++ "4")
       (Spec.example_db false (Some "Invalid credentials"%string)))
    (Routes.get_error_code_details ("AUTH" ++ Py.replicate 3 "0" ++ "4")
       (Spec.example_db false (Some "Invalid credentials"%string))).
Proof.
  apply (lookup_ignores_zero_padding _ "AUTH" "4" 3); try reflexivity.
  unfold Props.int_max_str_digits. simpl. lia.
Defined.



(** X11: a successful lookup is sound.  With a primary key on
    [prefixes], a result comes from a stored event code: the upper-case
    code parses to a chain of upper-case segments and an increment, a
    row has the joined chain as composed path, and the event code has
    that row's id and that increment; the result echoes the caller's
    code and carries the event code's hint and severity and, as
    details, its custom message, or the generic one when
    [use_generic_message] is set. *)
Theorem lookup_sound
        (db : database) (code : string) (r : Routes.EventCodeR) :
  Spec.primary_key (prefix_table db) ->
  Routes.get_error_code_details code db = Ok r ->
  exists S N n e,
    Utis.parse_error_code (Py.upper code) = Ok (S, N)
    /\ Forall (fun s => Spec.all_chars Py.is_upper s = true) S
    /\ In n (prefix_table db)
    /\ Spec.composed_path (prefix_table db) n (Py.join "." S)
    /\ In e (event_code_table db)
    /\ EventCode.prefix_id e = Prefix.id n
    /\ EventCode.increment e = N
    /\ Routes.code r = code
    /\ Props.message_of e = Some (Routes.details r)
    /\ Routes.hint r = EventCode.hint e
    /\ Routes.severity r = EventCode.severity e.
Proof.
  intros PK H.
  destruct (Utis.parse_error_code (Py.upper code)) as [[S N]|e0] eqn:Hp;
    [|unfold Routes.get_error_code_details in H; rewrite Hp in H;
      discriminate].
  destruct (query_spec (prefix_table db) PK S) as (ids & Hq & _ & Hin).
  rewrite (lookup_steps code db S N ids Hp Hq) in H.
  destruct ids as [|pid ids]; [discriminate|].
  destruct (pid =? 0); [discriminate|].
  destruct (Routes.event_code_query pid N (event_code_table db))
    as [|e [|e' l]] eqn:Hm; simpl in H; try discriminate.
  destruct (proj1 (Hin pid) (or_introl eq_refl)) as (n & Hn & Hid & Hc).
  assert (In e (Routes.event_code_query pid N (event_code_table db))) as He
      by (rewrite Hm; now left).
  unfold Routes.event_code_query in He. apply filter_In in He.
  destruct He as [He Hk]. apply andb_prop in Hk. destruct Hk as [Hk1 Hk2].
  apply Z.eqb_eq in Hk1, Hk2.
  exists S, N, n, e. unfold Props.message_of.
  destruct (if EventCode.use_generic_message e
            then Some Routes.generic_message
            else EventCode.custom_message e) as [m|]; simpl in H;
    [|discriminate].
  injection H as <-. simpl.
  repeat split; auto; try congruence.
  now apply parse_upper_segments with code N.
Qed.

Lemma lookup_sound_witness :
  exists S N n e,
    Utis.parse_error_code (Py.upper "auth0004") = Ok (S, N)
    /\ Forall (fun s => Spec.all_chars Py.is_upper s = true) S
    /\ In n [Spec.node_AUTH]
    /\ Spec.composed_path [Spec.node_AUTH] n (Py.join "." S)
    /\ In e [Spec.invalid_credentials false
               (Some "Invalid credentials"%string)]
    /\ EventCode.prefix_id e = Prefix.id n
    /\ EventCode.increment e = N
    /\ "auth0004"%string = "auth0004"%string
    /\ Props.message_of e = Some "Invalid credentials"%string
    /\ None = EventCode.hint e
    /\ ERROR = EventCode.severity e.
Proof.
  apply (lookup_sound
           (Spec.example_db false (Some "Invalid credentials"%string))
           "auth0004"
           (Routes.Build_EventCodeR "auth0004" "Invalid credentials"
                                    None ERROR)).
  - unfold Spec.primary_key. simpl. repeat constructor. intros [].
  - reflexivity.
Defined.

Lemma join_upper_chain ch :
  Forall (fun s => Props.upper_segment s = true) ch ->
  Forall (fun s => Spec.alpha_segment s = true) ch
  /\ Spec.all_chars (fun c => negb (Py.is_lower c)) (Py.join "." ch) = true.
Proof.
  unfold Py.join. induction ch as [|x ch IH]; intros H.
  - split; [constructor|reflexivity].
  - inversion H as [|? ? Hx Hch]; subst. destruct (IH Hch) as [IHa IHl].
    unfold Props.upper_segment in Hx. apply andb_prop in Hx.
    destruct Hx as [Nx Ux].
    assert (Spec.all_chars (fun c => negb (Py.is_lower c)) x = true) as Lx.
    { revert Ux. apply all_chars_weaken. intros c Hc.
      apply negb_true_iff. now apply upper_is_not_lower. }
    split.
    + constructor; [|exact IHa]. unfold Spec.alpha_segment.
      rewrite Nx. simpl. revert Ux. apply all_chars_weaken.
      intros c Hc. unfold Py.is_alpha. rewrite Hc. apply orb_true_r.
    + destruct ch as [|y ch]; [exact Lx|].
      change (String.concat "." (x :: y :: ch))
        with (x ++ String "." (String.concat "." (y :: ch)))%string.
      rewrite all_chars_app, Lx. cbn [Spec.all_chars andb].
      rewrite IHl. reflexivity.
Qed.

(** X12: the code that [EventCode.str_value] shows looks the event
    code up again.  In a table with primary key [id], unique (parent,
    segment), segments without dots and no parent id 0, for an event
    code with increment [>= 0] that is the only one with its prefix and
    increment, under a row with non-zero id whose chain consists of
    non-empty upper-case segments, [str_value] returns a code and the
    lookup of that code returns the data of this event code. *)
Theorem lookup_str_value
        (db : database) (e : EventCode.t) (n : Prefix.t) (ch : list string) :
  Spec.primary_key (prefix_table db) ->
  Spec.unique_parent_segment (prefix_table db) ->
  Spec.dot_free_segments (prefix_table db) ->
  Props.no_zero_parent (prefix_table db) ->
  Spec.chain (prefix_table db) n ch ->
  Forall (fun s => Props.upper_segment s = true) ch ->
  Prefix.id n <> 0 ->
  EventCode.prefix_id e = Prefix.id n ->
  0 <= EventCode.increment e ->
  Routes.event_code_query (Prefix.id n) (EventCode.increment e)
                          (event_code_table db) = [e] ->
  exists s,
    Models.EventCode_str_value db e = Ok s
    /\ Routes.get_error_code_details s db
       = Routes.EventCodeR_new s (Props.message_of e)
           (EventCode.hint e) (EventCode.severity e).
Proof.
  intros PK UPS DF NZ Hc Hup Hz Hpid Hinc Hm.
  exists (Spec.format ch (EventCode.increment e)).
  split; [now apply EventCode_str_value_format with n|].
  destruct (join_upper_chain ch Hup) as [Ha Hl].
  destruct (format_0r4_spec _ Hinc) as (Hi & Hd & Nd).
  assert (ch <> []) as Hne by now apply (chain_inv _ _ _ Hc).
  assert (Py.upper (Spec.format ch (EventCode.increment e))
          = Spec.format ch (EventCode.increment e)) as Hu.
  { apply upper_fixed. unfold Spec.format, Models.EventCode_format.
    rewrite all_chars_app, Hl. simpl. revert Hd. apply all_chars_weaken.
    intros c Hcd. apply negb_true_iff. now apply digit_not_lower. }
  assert (Utis.parse_error_code (Spec.format ch (EventCode.increment e))
          = Ok (ch, EventCode.increment e)) as Hp.
  { unfold Spec.format, Models.EventCode_format.
    rewrite <- (append_empty_r (Py.format_0r4 (EventCode.increment e))).
    rewrite parse_of_parts; auto.
    - rewrite Hi, split_dot_join; [reflexivity|exact Hne|].
      revert Ha. apply Forall_impl. exact alpha_segment_dot_free.
    - now apply join_nonempty.
    - now apply join_alpha_dot. }
  rewrite <- Hu in Hp at 1.
  destruct (query_spec (prefix_table db) PK ch) as (ids & Hq & ND & Hin).
  assert (ids = [Prefix.id n]) as ->.
  { apply nodup_singleton; [exact ND| |].
    - apply Hin. exists n. split; [now apply (chain_inv _ _ _ Hc)|].
      split; [reflexivity|]. now exists ch.
    - intros i Hi'. apply Hin in Hi'. destruct Hi' as (m & Hm' & <- & Hpm).
      f_equal.
      apply (composed_path_unique _ UPS DF) with (Py.join "." ch);
        [exact Hpm|now exists ch]. }
  rewrite (lookup_steps _ db ch (EventCode.increment e) _ Hp Hq).
  apply Z.eqb_neq in Hz. rewrite Hz, Hm. reflexivity.
Qed.

Lemma lookup_str_value_witness :
  exists s,
    Models.EventCode_str_value
      (Spec.example_db false (Some "Invalid credentials"%string))
      (Spec.invalid_credentials false (Some "Invalid credentials"%string))
    = Ok s
    /\ Routes.get_error_code_details s
         (Spec.example_db false (Some "Invalid credentials"%string))
       = Routes.EventCodeR_new s
           (Props.message_of
              (Spec.invalid_credentials false
                 (Some "Invalid credentials"%string)))
           None ERROR.
Proof.
  apply (lookup_str_value
           (Spec.example_db false (Some "Invalid credentials"%string))
           (Spec.invalid_credentials false (Some "Invalid credentials"%string))
           Spec.node_AUTH ["AUTH"%string]).
  - unfold Spec.primary_key. simpl. repeat constructor. intros [].
  - intros a b Ha Hb. simpl in Ha, Hb.
    destruct Ha as [<-|[]], Hb as [<-|[]]. reflexivity.
  - repeat constructor.
  - intros p Hp. simpl in Hp. destruct Hp as [<-|[]]. discriminate.
  - apply (Spec.chain_root _ Spec.node_AUTH); simpl; auto.
  - repeat constructor.
  - discriminate.
  - reflexivity.
  - simpl. lia.
  - reflexivity.
Defined.

(* ===================================================================== *)
(** * Further properties of the increment allocator *)
(* ===================================================================== *)

Section AllocatorMore.

Import Triggers.

(** The next increment is above every increment under the prefix. *)
Lemma next_increment_gt T p e :
  In e T -> EventCode.prefix_id e = p ->
  EventCode.increment e < next_increment T p.
Proof.
  intros He Hp. unfold next_increment.
  pose proof (sql_max_spec
                (map EventCode.increment
                     (filter (fun e => EventCode.prefix_id e =? p) T)))
    as Hmax.
  assert (In (EventCode.increment e)
             (map EventCode.increment
                  (filter (fun e => EventCode.prefix_id e =? p) T))) as Hin.
  { apply in_map, filter_In. split; [exact He|]. now apply Z.eqb_eq. }
  destruct (sql_max _) as [m|].
  - destruct Hmax as [_ Hle]. specialize (Hle _ Hin). simpl. lia.
  - rewrite Hmax in Hin. destruct Hin.
Qed.

(** The next increment is one more than the increment of a row that is
    largest under the prefix. *)
Lemma next_increment_max T p m :
  In m T -> EventCode.prefix_id m = p ->
  (forall r, In r T -> EventCode.prefix_id r = p ->
             EventCode.increment r <= EventCode.increment m) ->
  next_increment T p = EventCode.increment m + 1.
Proof.
  intros Hm Hp Hmax. pose proof (next_increment_gt T p m Hm Hp) as Hgt.
  unfold next_increment in *.
  pose proof (sql_max_spec
                (map EventCode.increment
                     (filter (fun e => EventCode.prefix_id e =? p) T)))
    as Hs.
  destruct (sql_max _) as [x|]; simpl in *.
  - destruct Hs as [Hin _]. apply in_map_iff in Hin.
    destruct Hin as (r & <- & Hr). apply filter_In in Hr.
    destruct Hr as [Hr Hrp]. apply Z.eqb_eq in Hrp.
    specialize (Hmax r Hr Hrp). lia.
  - exfalso.
    assert (In m (filter (fun e => EventCode.prefix_id e =? p) T)) as Hin
        by (apply filter_In; split; [auto|now apply Z.eqb_eq]).
    apply (in_map EventCode.increment) in Hin. rewrite Hs in Hin.
    destruct Hin.
Qed.

Lemma numbered_increments base news :
  map EventCode.increment (Props.numbered base news)
  = map (fun i => base + Z.of_nat i) (seq 0 (List.length news)).
Proof.
  revert base. induction news as [|e news IH]; intros base; [reflexivity|].
  simpl. rewrite IH, <- seq_shift, map_map. f_equal; [f_equal; lia|].
  apply map_ext. intros i. lia.
Qed.

End AllocatorMore.

(** X13: the trigger keeps the pairs (prefix_id, increment) unique: if
    no two stored event codes share both, none do after an insertion. *)
Theorem insert_keeps_key_unique (T : list EventCode.t) (NEW : EventCode.t) :
  NoDup (map Props.key T) ->
  NoDup (map Props.key (Triggers.insert_event_code T NEW)).
Proof.
  intros ND. unfold Triggers.insert_event_code. rewrite map_app.
  apply NoDup_app; [exact ND|repeat constructor; intros []|].
  intros k Hk [<-|[]]. apply in_map_iff in Hk.
  destruct Hk as (e & Hkey & He). unfold Props.key in Hkey. simpl in Hkey.
  injection Hkey as Hp Hi.
  pose proof (next_increment_gt T (EventCode.prefix_id NEW) e He Hp). lia.
Qed.

Lemma insert_keeps_key_unique_witness :
  NoDup (map Props.key
           (Triggers.insert_event_code
              [Spec.invalid_credentials false None]
              (Spec.invalid_credentials true None))).
Proof.
  apply insert_keeps_key_unique. simpl. repeat constructor. intros [].
Defined.

(** X14: creations in a row under one prefix, in a table of 32-bit
    increments, are numbered without gap or repetition as long as the
    column's range lasts: with [b] the next increment of the prefix
    before the first creation, the rows are stored in order with the
    increments [b], [b+1], [b+2], ... when the last of them is at most
    2147483647; otherwise the sequence fails at the creation whose
    increment would pass 2147483647. *)
Theorem sequential_creations
        (news T : list EventCode.t) (p : Z) :
  Props.int4_rows T = true ->
  (forall e, In e news -> EventCode.prefix_id e = p) ->
  (Triggers.next_increment T p + Z.of_nat (List.length news)
   <= Triggers.int4_max + 1 ->
   Triggers.insert_all T news
   = Some (T ++ Props.numbered (Triggers.next_increment T p) news)
   /\ map EventCode.increment
          (Props.numbered (Triggers.next_increment T p) news)
      = map (fun i => Triggers.next_increment T p + Z.of_nat i)
            (seq 0 (List.length news)))
  /\ (Triggers.int4_max + 1
      < Triggers.next_increment T p + Z.of_nat (List.length news) ->
      Triggers.insert_all T news = None).
Proof.
  intros HT Hp. split.
  - intros Hb. split; [|apply numbered_increments].
    now apply insert_all_numbered.
  - intros Hb. now apply insert_all_refused with p.
Qed.

Lemma sequential_creations_witness :
  Triggers.insert_all
    [Spec.invalid_credentials false None]
    [Spec.invalid_credentials false None; Spec.invalid_credentials true None]
  = Some ([Spec.invalid_credentials false None]
            ++ Props.numbered
                 (Triggers.next_increment
                    [Spec.invalid_credentials false None] 1)
                 [Spec.invalid_credentials false None;
                  Spec.invalid_credentials true None])
  /\ map EventCode.increment
         (Props.numbered
            (Triggers.next_increment [Spec.invalid_credentials false None] 1)
            [Spec.invalid_credentials false None;
             Spec.invalid_credentials true None])
     = map (fun i => Triggers.next_increment
                       [Spec.invalid_credentials false None] 1 + Z.of_nat i)
           (seq 0 2).
Proof.
  refine (proj1 (sequential_creations
                   [Spec.invalid_credentials false None;
                    Spec.invalid_credentials true None]
                   [Spec.invalid_credentials false None] 1 _ _) _).
  - reflexivity.
  - intros e He. simpl in He. destruct He as [<-|[<-|[]]]; reflexivity.
  - vm_compute. discriminate.
Defined.

(** X15: a deleted increment is given out again when it was the
    largest: after an event code is created and then deleted, the next
    creation under the same prefix receives the increment that the
    deleted one had. *)
Theorem increment_reused_after_delete
        (P : list Prefix.t) (T : list EventCode.t) (NEW NEW2 : EventCode.t) :
  (forall r, In r T -> EventCode.id r <> EventCode.id NEW) ->
  EventCode.prefix_id NEW2 = EventCode.prefix_id NEW ->
  exists db',
    Sql.execute (Database P (Triggers.insert_event_code T NEW))
                (Sql.DeleteEventCode (EventCode.id NEW)) = Some db'
    /\ event_code_table db' = T
    /\ EventCode.increment
         (Triggers.auto_event_code_increment_function
            (event_code_table db') NEW2)
       = EventCode.increment
           (Triggers.auto_event_code_increment_function T NEW).
Proof.
  intros Hid Hp. eexists. split; [reflexivity|]. simpl.
  assert (filter (fun r => negb (EventCode.id r =? EventCode.id NEW)%string)
                 (Triggers.insert_event_code T NEW) = T) as ->.
  { unfold Triggers.insert_event_code. rewrite filter_app. simpl.
    rewrite String.eqb_refl. simpl. rewrite app_nil_r.
    apply forallb_filter_id. apply forallb_forall. intros r Hr.
    apply negb_true_iff, String.eqb_neq. now apply Hid. }
  split; [reflexivity|]. now rewrite Hp.
Qed.

Lemma increment_reused_after_delete_witness :
  exists db',
    Sql.execute
      (Database [Spec.node_AUTH]
         (Triggers.insert_event_code [] (Spec.invalid_credentials false None)))
      (Sql.DeleteEventCode
         (EventCode.id (Spec.invalid_credentials false None))) = Some db'
    /\ event_code_table db' = []
    /\ EventCode.increment
         (Triggers.auto_event_code_increment_function
            (event_code_table db') (Spec.invalid_credentials true None))
       = EventCode.increment
           (Triggers.auto_event_code_increment_function
              [] (Spec.invalid_credentials false None)).
Proof.
  apply (increment_reused_after_delete [Spec.node_AUTH] []
           (Spec.invalid_credentials false None)
           (Spec.invalid_credentials true None)).
  - intros r [].
  - reflexivity.
Defined.

(** X16: a gap is not filled: in a table of 32-bit increments, when
    the row [m] has the largest increment under a prefix and that is
    below 2147483647, a creation under the prefix is stored with the
    increment of [m] plus one; and it is stored with that same
    increment after the deletion of any event code other than [m],
    whatever increments lie below. *)
Theorem gap_not_filled
        (P : list Prefix.t) (T : list EventCode.t) (eid : string)
        (NEW m : EventCode.t) :
  Props.int4_rows T = true ->
  In m T -> EventCode.prefix_id m = EventCode.prefix_id NEW ->
  EventCode.id m <> eid ->
  (forall r, In r T -> EventCode.prefix_id r = EventCode.prefix_id NEW ->
             EventCode.increment r <= EventCode.increment m) ->
  EventCode.increment m < Triggers.int4_max ->
  exists row db',
    Triggers.event_code_auto_increment T NEW = Some row
    /\ EventCode.increment row = EventCode.increment m + 1
    /\ Sql.execute (Database P T) (Sql.DeleteEventCode eid) = Some db'
    /\ (forall r, In r (event_code_table db')
                  <-> In r T /\ EventCode.id r <> eid)
    /\ Triggers.event_code_auto_increment (event_code_table db') NEW
       = Some row.
Proof.
  intros HT Hm Hp Hid Hmax Hlt.
  set (T' := filter (fun r => negb (EventCode.id r =? eid)%string) T).
  assert (forall r, In r T' <-> In r T /\ EventCode.id r <> eid) as HT'.
  { intros r. unfold T'. rewrite filter_In, negb_true_iff, String.eqb_neq.
    reflexivity. }
  assert (Props.int4_rows T' = true) as HT4.
  { unfold Props.int4_rows in *. rewrite forallb_forall in *.
    intros r Hr. apply HT. now apply HT'. }
  pose proof (next_increment_max T (EventCode.prefix_id NEW) m Hm Hp Hmax)
    as Hn.
  assert (Triggers.next_increment T' (EventCode.prefix_id NEW)
          = EventCode.increment m + 1) as Hn'.
  { apply next_increment_max; [now apply HT'|exact Hp|].
    intros r Hr. apply HT' in Hr. now apply Hmax. }
  exists (Triggers.set_increment NEW (EventCode.increment m + 1)),
    (Database P T').
  assert (forall U, Props.int4_rows U = true ->
            Triggers.next_increment U (EventCode.prefix_id NEW)
            = EventCode.increment m + 1 ->
            Triggers.event_code_auto_increment U NEW
            = Some (Triggers.set_increment NEW (EventCode.increment m + 1)))
    as Hrow.
  { intros U HU HnU. rewrite event_code_auto_increment_in_range.
    - unfold Triggers.auto_event_code_increment_function. now rewrite HnU.
    - rewrite next_increment_in_int4 by exact HU. apply Z.leb_le. lia. }
  split; [now apply Hrow|]. split; [reflexivity|].
  split; [reflexivity|]. split; [exact HT'|]. now apply Hrow.
Qed.

Lemma gap_not_filled_witness :
  exists row db',
    Triggers.event_code_auto_increment
      [EventCode.Build "1b2c" 1 1 None None INFO None false false false;
       Spec.invalid_credentials false None]
      (EventCode.Build "9a0b" 1 0 None None INFO None false false false)
    = Some row
    /\ EventCode.increment row = 4 + 1
    /\ Sql.execute
         (Database [Spec.node_AUTH]
            [EventCode.Build "1b2c" 1 1 None None INFO None
                             false false false;
             Spec.invalid_credentials false None])
         (Sql.DeleteEventCode "1b2c") = Some db'
    /\ (forall r, In r (event_code_table db')
                  <-> In r [EventCode.Build "1b2c" 1 1 None None INFO None
                                            false false false;
                            Spec.invalid_credentials false None]
                      /\ EventCode.id r <> "1b2c"%string)
    /\ Triggers.event_code_auto_increment (event_code_table db')
         (EventCode.Build "9a0b" 1 0 None None INFO None false false false)
       = Some row.
Proof.
  apply (gap_not_filled [Spec.node_AUTH]
           [EventCode.Build "1b2c" 1 1 None None INFO None false false false;
            Spec.invalid_credentials false None]
           "1b2c"
           (EventCode.Build "9a0b" 1 0 None None INFO None false false false)
           (Spec.invalid_credentials false None)).
  - reflexivity.
  - right. now left.
  - reflexivity.
  - discriminate.
  - intros r [<-|[<-|[]]] _; simpl; lia.
  - unfold Triggers.int4_max. simpl. lia.
Defined.

(* ===================================================================== *)
(** * The shortened identifier of the administration views *)
(* ===================================================================== *)

Section Slices.

Lemma slice_to_drop n s : s = (Py.slice_to n s ++ Py.drop n s)%string.
Proof.
  revert s. induction n as [|n IH]; intros [|c s]; simpl; try reflexivity.
  now rewrite <- IH.
Qed.

Lemma length_slice_to n s :
  String.length (Py.slice_to n s) = Nat.min n (String.length s).
Proof.
  revert s. induction n as [|n IH]; intros [|c s]; simpl; try reflexivity.
  now rewrite IH.
Qed.

Lemma length_drop n s :
  String.length (Py.drop n s) = (String.length s - n)%nat.
Proof.
  revert s. induction n as [|n IH]; intros [|c s]; simpl; try reflexivity.
  apply IH.
Qed.

Lemma slice_to_all n s :
  (String.length s <= n)%nat -> Py.slice_to n s = s.
Proof.
  revert s. induction n as [|n IH]; intros [|c s]; simpl; intros H;
    try reflexivity; try lia.
  rewrite IH by lia. reflexivity.
Qed.

Lemma length_slice_last n s :
  String.length (Py.slice_last n s) = Nat.min n (String.length s).
Proof. unfold Py.slice_last. rewrite length_drop. lia. Qed.

End Slices.

(** X18: [ShortUUIDField.parse_obj] shows [2 * min(9, len) + 3]
    characters: of a value of 9 characters or more, its first 9 and its
    last 9 around ["..."] (21 characters in all, whatever lies between
    is dropped); a value of at most 9 characters is shown twice. *)
Theorem ShortUUIDField_shape (val : string) :
  String.length (Main.ShortUUIDField_parse_obj val)
  = (2 * Nat.min 9 (String.length val) + 3)%nat
  /\ ((9 <= String.length val)%nat ->
      exists head tail,
        Main.ShortUUIDField_parse_obj val
        = (Py.slice_to 9 val ++ "..." ++ Py.slice_last 9 val)%string
        /\ val = (Py.slice_to 9 val ++ tail)%string
        /\ val = (head ++ Py.slice_last 9 val)%string
        /\ String.length (Py.slice_to 9 val) = 9%nat
        /\ String.length (Py.slice_last 9 val) = 9%nat)
  /\ ((String.length val <= 9)%nat ->
      Main.ShortUUIDField_parse_obj val = (val ++ "..." ++ val)%string).
Proof.
  unfold Main.ShortUUIDField_parse_obj. split; [|split].
  - rewrite !length_append, length_slice_to, length_slice_last. simpl. lia.
  - intros H. exists (Py.slice_to (String.length val - 9) val), (Py.drop 9 val).
    split; [reflexivity|]. split; [apply slice_to_drop|].
    split; [apply slice_to_drop|].
    rewrite length_slice_to, length_slice_last. lia.
  - intros H. unfold Py.slice_last.
    replace (String.length val - 9)%nat with 0%nat by lia.
    rewrite slice_to_all by exact H. now destruct val.
Qed.

Example ShortUUIDField_uuid :
  Main.ShortUUIDField_parse_obj "123e4567-e89b-12d3-a456-426614174000"
  = "123e4567-...614174000"%string.
Proof. reflexivity. Qed.

(** X19: [Prefix.str_value] tests [not self.parent_prefix_id], which
    holds for the parent id 0 as for a missing parent: the child of a
    root with id 0 is shown with its own segment only, although its
    composed path, by which the query finds it, begins with the root's
    segment. *)
Theorem str_value_child_of_zero
        (T : list Prefix.t) (root n : Prefix.t) (fuel : nat) :
  In root T -> In n T ->
  Prefix.id root = 0 -> Prefix.parent_prefix_id root = None ->
  Prefix.parent_prefix_id n = Some 0 ->
  Models.Prefix_str_value (S fuel) T n = Ok (Prefix.prefix n)
  /\ Spec.composed_path T n
       (Prefix.prefix root ++ "." ++ Prefix.prefix n)%string.
Proof.
  intros Hr Hn Hid Hroot Hp. split.
  - simpl. now rewrite Hp.
  - exists [Prefix.prefix root; Prefix.prefix n]. split; [|reflexivity].
    apply (Spec.chain_child T n root [Prefix.prefix root]); auto.
    + now rewrite Hid.
    + now apply Spec.chain_root.
Qed.

Lemma str_value_child_of_zero_witness :
  Models.Prefix_str_value 1
    [Prefix.Build 0 "Z" "z" None None; Prefix.Build 1 "Y" "y" None (Some 0)]
    (Prefix.Build 1 "Y" "y" None (Some 0)) = Ok "Y"%string
  /\ Spec.composed_path
       [Prefix.Build 0 "Z" "z" None None; Prefix.Build 1 "Y" "y" None (Some 0)]
       (Prefix.Build 1 "Y" "y" None (Some 0)) "Z.Y".
Proof.
  apply (str_value_child_of_zero
           [Prefix.Build 0 "Z" "z" None None;
            Prefix.Build 1 "Y" "y" None (Some 0)]
           (Prefix.Build 0 "Z" "z" None None)
           (Prefix.Build 1 "Y" "y" None (Some 0)) 0);
    simpl; auto.
Defined.

(** X20: the lookup never picks one of several event codes: once a
    prefix is resolved (the query's first row has a non-zero id), it
    raises [MultipleResultsFound] exactly when two or more event codes
    have the resolved prefix id and the parsed increment. *)
Theorem lookup_multiple_results
        (db : database) (code : string) (prefixes : list string)
        (increment prefix_id : Z) (rest : list Z) :
  Utis.parse_error_code (Py.upper code) = Ok (prefixes, increment) ->
  Utis.get_prefix_ids_by_composed_key_query prefixes (prefix_table db)
  = Ok (prefix_id :: rest) ->
  prefix_id <> 0 ->
  (Routes.get_error_code_details code db = Raise MultipleResultsFound
   <-> (2 <= List.length
               (Routes.event_code_query prefix_id increment
                                        (event_code_table db)))%nat).
Proof.
  intros Hp Hq Hz.
  rewrite (lookup_steps code db prefixes increment _ Hp Hq).
  apply Z.eqb_neq in Hz. rewrite Hz.
  destruct (Routes.event_code_query prefix_id increment (event_code_table db))
    as [|e [|e' l]]; simpl.
  - split; [discriminate|lia].
  - destruct (if EventCode.use_generic_message e
              then Some Routes.generic_message
              else EventCode.custom_message e); simpl;
      (split; [discriminate|lia]).
  - split; [lia|reflexivity].
Qed.

Lemma lookup_multiple_results_witness :
  Routes.get_error_code_details "AUTH0004"
    (Database [Spec.node_AUTH]
       [Spec.invalid_credentials false None;
        Spec.invalid_credentials true None])
  = Raise MultipleResultsFound
  <-> (2 <= List.length
              (Routes.event_code_query 1 4
                 [Spec.invalid_credentials false None;
                  Spec.invalid_credentials true None]))%nat.
Proof.
  apply (lookup_multiple_results
           (Database [Spec.node_AUTH]
              [Spec.invalid_credentials false None;
               Spec.invalid_credentials true None])
           "AUTH0004" ["AUTH"%string] 4 1 []); try reflexivity.
  discriminate.
Defined.

(** X21: the trigger overwrites whatever increment the new row carries
    (the column default 0 as any other value), and it keeps the stored
    increments positive: if all of them are at least 1, so is the one
    it assigns. *)
Theorem trigger_overwrites_increment
        (T : list EventCode.t) (NEW : EventCode.t) (k : Z) :
  Triggers.insert_event_code T (Triggers.set_increment NEW k)
  = Triggers.insert_event_code T NEW
  /\ (Forall (fun e => 1 <= EventCode.increment e) T ->
      Forall (fun e => 1 <= EventCode.increment e)
             (Triggers.insert_event_code T NEW)).
Proof.
  split; [reflexivity|].
  intros H. unfold Triggers.insert_event_code. apply Forall_app.
  split; [exact H|]. constructor; [|constructor]. simpl.
  unfold Triggers.next_increment.
  pose proof (sql_max_spec
                (map EventCode.increment
                     (filter (fun e => EventCode.prefix_id e
                                       =? EventCode.prefix_id NEW) T)))
    as Hs.
  destruct (Triggers.sql_max _) as [m|]; simpl; [|lia].
  destruct Hs as [Hin _]. apply in_map_iff in Hin.
  destruct Hin as (e & <- & He). apply filter_In in He.
  destruct He as [He _]. rewrite Forall_forall in H.
  specialize (H e He). lia.
Qed.
